(** * fastNLP mini-batch iterator ([fastNLP/core/batch.py])

    A shallow embedding of the [Batch] class: the start-of-pass operation
    [__iter__], the step operation [__next__], and the [for] loop that drains
    one pass, together with the properties of the cursor, of the per-batch
    padding and of the [_origin_len] auxiliaries. *)

From stdpp Require Import gmap strings list fin_maps sorting.

(** ** Exceptions and fallible computations *)

Inductive Exc :=
  | StopIteration
  | TypeError
  | AttributeError
  | ValueError
  | IndexError
  | KeyError
  | RuntimeError.

#[global] Instance Exc_eq_dec : EqDecision Exc.
Proof. solve_decision. Defined.

Inductive Res (A : Type) :=
  | Ok (a : A)
  | Raise (e : Exc).
Arguments Ok {A} a.
Arguments Raise {A} e.

#[global] Instance Res_ret : MRet Res := λ A a, Ok a.

#[global] Instance Res_bind : MBind Res := λ A B k r,
  match r with
  | Ok a => k a
  | Raise e => Raise e
  end.

(** A [for] loop whose body may raise: the first exception aborts the loop. *)
Fixpoint for_each {A S} (body : S → A → Res S) (s : S) (l : list A) : Res S :=
  match l with
  | [] => Ok s
  | a :: l' => s' ← body s a; for_each body s' l'
  end.

(** [d[k]] on a dict: a missing key raises [KeyError]. *)
Definition getitem {A} (d : gmap string A) (k : string) : Res A :=
  match d !! k with
  | Some a => Ok a
  | None => Raise KeyError
  end.

(** A loop over [d.items()] that fills a new dict with [f name value]. *)
Definition dict_for {A B} (key : string → string) (f : string → A → Res B)
    (d : gmap string A) : Res (gmap string B) :=
  for_each (λ acc '(k, a), b ← f k a; Ok (<[key k := b]> acc)) ∅ (map_to_list d).

(** ** Python built-ins used by the iterator *)

(** [l[i:j]] for non-negative [i] and [j]. *)
Definition slice {A} (i j : nat) (l : list A) : list A := take (j - i) (drop i l).

(** [range(i, j)]. *)
Definition range (i j : nat) : list nat := seq i (j - i).

(** [max(l)]: raises [ValueError] on an empty sequence. *)
Definition py_max (l : list nat) : Res nat :=
  match l with
  | [] => Raise ValueError
  | x :: l' => Ok (foldl Nat.max x l')
  end.

(** ** Tensors

    Only what the iterator touches: one-dimensional integer tensors
    ([torch.LongTensor] of a list), their stacking along a new leading
    dimension, and the device they live on. *)

Inductive Device := Cpu | Cuda.

#[global] Instance Device_eq_dec : EqDecision Device.
Proof. solve_decision. Defined.

Inductive Tensor :=
  | Vec (dev : Device) (data : list Z)
  | Mat (dev : Device) (rows : list (list Z)).

#[global] Instance Tensor_eq_dec : EqDecision Tensor.
Proof. solve_decision. Defined.

Definition LongTensor (data : list Z) : Tensor := Vec Cpu data.

Definition cuda (t : Tensor) : Tensor :=
  match t with
  | Vec _ data => Vec Cuda data
  | Mat _ rows => Mat Cuda rows
  end.

Definition device (t : Tensor) : Device :=
  match t with
  | Vec dev _ => dev
  | Mat dev _ => dev
  end.

(** The row contributed by one tensor to a stack whose rows have length [n]
    and live on [dev]; anything else makes [torch.stack] fail. *)
Definition stack_row (dev : Device) (n : nat) (t : Tensor) : Res (list Z) :=
  match t with
  | Vec dev' data =>
      if decide (dev' = dev ∧ length data = n) then Ok data else Raise RuntimeError
  | Mat _ _ => Raise RuntimeError
  end.

Fixpoint stack_rows (dev : Device) (n : nat) (ts : list Tensor) : Res (list (list Z)) :=
  match ts with
  | [] => Ok []
  | t :: ts' => r ← stack_row dev n t; rs ← stack_rows dev n ts'; Ok (r :: rs)
  end.

(** [torch.stack(ts, dim=0)] on one-dimensional tensors: the list must be
    non-empty and its tensors must agree in size and device. *)
Definition stack (ts : list Tensor) : Res Tensor :=
  match ts with
  | Vec dev data :: _ => rows ← stack_rows dev (length data) ts; Ok (Mat dev rows)
  | _ => Raise RuntimeError
  end.

(** ** The dataset store *)

(** Modelled from the spec: the Field abstraction ([fastNLP/core/field.py] is
    not part of the sources). A field value is a sequence of token ids (a label
    is a sequence too), tagged as target or input. *)
Record Field := mkField { value : list Z; is_target : bool }.

(** Modelled from the spec: an Instance ([fastNLP/core/instance.py]) is a
    mapping from field name to field value. *)
Abbreviation Instance := (gmap string Field).

(** Modelled from the spec: a DataSet ([fastNLP/core/dataset.py]) is an
    ordered sequence of Instances. *)
Abbreviation DataSet := (list Instance).

(** Modelled from the spec: the origin length of a field is its true,
    pre-padding length. *)
Definition origin_length (f : Field) : nat := length (value f).

(** [for name, v in d.items(): acc[name].append(v)] on a
    [defaultdict(list)]: every value of [d] is appended to the list kept
    under its name (lines 59-62 of [batch.py]). *)
Definition append_all {A} (acc : gmap string (list A)) (d : gmap string A)
    : gmap string (list A) :=
  merge (λ ol oa,
           match oa with
           | Some a => Some (default [] ol ++ [a])
           | None => ol
           end) acc d.

(** The same over a sequence of dicts, from an empty [defaultdict]. *)
Definition gather {A} (ds : list (gmap string A)) : gmap string (list A) :=
  foldl append_all ∅ ds.

(** Modelled from the spec: [DataSet.get_length] exposes, per field name, the
    ordered sequence of per-instance lengths; for one instance these are the
    lengths of its fields. *)
Definition Instance_get_length (ins : Instance) : gmap string nat :=
  origin_length <$> ins.

(** Modelled from the spec: the sequence of a field has one entry for each
    instance that carries the field, in dataset order. *)
Definition get_length (d : DataSet) : gmap string (list nat) :=
  gather (Instance_get_length <$> d).

(** Modelled from the spec: a field is rendered at the requested padding
    length by extending it with the filler value 0; a value that exceeds the
    requested length cannot be rendered and the conversion fails. *)
Definition Field_to_tensor (f : Field) (padding_length : nat) : Res Tensor :=
  if decide (origin_length f ≤ padding_length)
  then Ok (LongTensor (value f ++ replicate (padding_length - origin_length f) 0%Z))
  else Raise ValueError.

(** Modelled from the spec: the fields of an instance that carry the tag
    [target], each rendered at the padding length requested under its name;
    a name without a requested length raises [KeyError]. *)
Definition Instance_to_tensor (target : bool) (ins : Instance)
    (padding_length : gmap string nat) : Res (gmap string Tensor) :=
  dict_for id (λ name f, pl ← getitem padding_length name; Field_to_tensor f pl)
           (filter (λ kf, is_target kf.2 = target) ins).

(** Modelled from the spec: [DataSet.to_tensor(index, padding_length)] returns
    the pair (input fields, target fields) of the instance at [index], each a
    mapping from field name to a single tensor padded to the requested
    length. *)
Definition to_tensor (d : DataSet) (idx : nat) (padding_length : gmap string nat)
    : Res (gmap string Tensor * gmap string Tensor) :=
  match d !! idx with
  | None => Raise IndexError
  | Some ins =>
      x ← Instance_to_tensor false ins padding_length;
      y ← Instance_to_tensor true ins padding_length;
      Ok (x, y)
  end.

(** ** The sampler

    A callable that returns the index ordering of one pass.  It may be
    randomized, so it threads its own state (a seed). *)
Definition Sampler := nat → DataSet → list nat * nat.

(** [SeqSampler] of the running example. *)
Definition SeqSampler : Sampler := λ seed d, (seq 0 (length d), seed).

(** ** The Batch iterator *)

Record Batch := mkBatch {
  dataset : DataSet;
  batch_size : nat;
  sampler : Sampler;
  seed : nat;
  use_cuda : bool;
  idx_list : option (list nat);
  curidx : nat;
  lengths : option (gmap string (list nat))
}.

(** [Batch.__init__]: [idx_list] is [None] and [lengths] is not yet set. *)
Definition init (d : DataSet) (bs : nat) (s : Sampler) (sd : nat) (uc : bool) : Batch :=
  mkBatch d bs s sd uc None 0 None.

(** [Batch.__iter__]. *)
Definition iter (b : Batch) : Batch :=
  let '(il, sd) := sampler b (seed b) (dataset b) in
  mkBatch (dataset b) (batch_size b) (sampler b) sd (use_cuda b)
          (Some il) 0 (Some (get_length (dataset b))).

Definition set_curidx (b : Batch) (c : nat) : Batch :=
  mkBatch (dataset b) (batch_size b) (sampler b) (seed b) (use_cuda b)
          (idx_list b) c (lengths b).

Definition on_device (uc : bool) (t : Tensor) : Tensor := if uc then cuda t else t.

(** What one step returns: [batch_x] and [batch_y], and (as a record of the
    loop at lines 57-58) the indices handed to [to_tensor], in call order. *)
Record BatchOut := mkOut {
  visited : list nat;
  batch_x : gmap string Tensor;
  batch_y : gmap string Tensor
}.

Definition endidx_of (b : Batch) (il : list nat) : nat :=
  Nat.min (curidx b + batch_size b) (length il).

(** Lines 51-52: the padding length of every field over the slice. *)
Definition padding_length_of (c endidx : nat) (lens : gmap string (list nat))
    : Res (gmap string nat) :=
  dict_for id (λ _ field_length, py_max (slice c endidx field_length)) lens.

(** Lines 53-54: the original lengths of every field over the slice. *)
Definition origin_lengths_of (c endidx : nat) (lens : gmap string (list nat))
    : gmap string (list nat) :=
  slice c endidx <$> lens.

(** Lines 56-62: the per-instance tensors of the slice, gathered per field. *)
Definition collect (d : DataSet) (c endidx : nat) (padding_length : gmap string nat)
    : Res (gmap string (list Tensor) * gmap string (list Tensor)) :=
  for_each (λ '(bx, by_) idx,
              '(x, y) ← to_tensor d idx padding_length;
              Ok (append_all bx x, append_all by_ y))
           (∅, ∅) (range c endidx).

(** Lines 67-71: every list of tensors is replaced by its stack. *)
Definition stack_all (uc : bool) (batch : gmap string (list Tensor))
    : Res (gmap string Tensor) :=
  dict_for id (λ _ tensor_list, t ← stack tensor_list; Ok (on_device uc t)) batch.

(** Lines 74-78: one [_origin_len] entry per name of [batch_x]. *)
Definition origin_length_entries (uc : bool) (origin_lengths : gmap string (list nat))
    (bx : gmap string Tensor) : Res (gmap string Tensor) :=
  dict_for (λ name, name +:+ "_origin_len")
           (λ name _, ol ← getitem origin_lengths name;
                      Ok (on_device uc (LongTensor (Z.of_nat <$> ol))))
           bx.

(** Lines 50-79: the batch built from the slice [curidx, endidx). *)
Definition make_batch (b : Batch) (lens : gmap string (list nat)) (endidx : nat)
    : Res BatchOut :=
  padding_length ← padding_length_of (curidx b) endidx lens;
  let origin_lengths := origin_lengths_of (curidx b) endidx lens in
  '(xs, ys) ← collect (dataset b) (curidx b) endidx padding_length;
  sx ← stack_all (use_cuda b) xs;
  sy ← stack_all (use_cuda b) ys;
  batch_origin_length ← origin_length_entries (use_cuda b) origin_lengths sx;
  Ok (mkOut (range (curidx b) endidx) (batch_origin_length ∪ sx) sy).

(** [Batch.__next__]: the state after the call and what the call returns or
    raises.  The cursor is advanced with [curidx += endidx]. *)
Definition next (b : Batch) : Batch * Res BatchOut :=
  match idx_list b with
  | None => (b, Raise TypeError)
  | Some il =>
      if decide (length il ≤ curidx b) then (b, Raise StopIteration)
      else
        let endidx := endidx_of b il in
        match lengths b with
        | None => (b, Raise AttributeError)
        | Some lens =>
            match make_batch b lens endidx with
            | Ok out => (set_curidx b (curidx b + endidx), Ok out)
            | Raise e => (b, Raise e)
            end
        end
  end.

(** The iterator as evidently intended: the same step, with the cursor set to
    [endidx] (an absolute position). *)
Definition next_fixed (b : Batch) : Batch * Res BatchOut :=
  match idx_list b with
  | None => (b, Raise TypeError)
  | Some il =>
      if decide (length il ≤ curidx b) then (b, Raise StopIteration)
      else
        let endidx := endidx_of b il in
        match lengths b with
        | None => (b, Raise AttributeError)
        | Some lens =>
            match make_batch b lens endidx with
            | Ok out => (set_curidx b endidx, Ok out)
            | Raise e => (b, Raise e)
            end
        end
  end.

(** [for batch_x, batch_y in it]: steps until [StopIteration]; any other
    exception aborts the loop.  [None] means the fuel ran out. *)
Fixpoint drain (step : Batch → Batch * Res BatchOut) (fuel : nat) (b : Batch)
    : option (Batch * Res (list BatchOut)) :=
  match fuel with
  | 0 => None
  | S fuel' =>
      match step b with
      | (b', Raise StopIteration) => Some (b', Ok [])
      | (b', Raise e) => Some (b', Raise e)
      | (b', Ok out) =>
          match drain step fuel' b' with
          | Some (b'', Ok outs) => Some (b'', Ok (out :: outs))
          | other => other
          end
      end
  end.

Definition one_pass (fuel : nat) (b : Batch) : option (Batch * Res (list BatchOut)) :=
  drain next fuel (iter b).

Definition one_pass_fixed (fuel : nat) (b : Batch) : option (Batch * Res (list BatchOut)) :=
  drain next_fixed fuel (iter b).

(** ** The running example

    The example at the end of [batch.py]: text fields as inputs, label fields
    as targets, batch size 2 and the sequential sampler; the third text has
    two tokens, as in the three-instance scenario of the specification. *)

Definition text_field (tokens : list Z) : Field := mkField tokens false.
Definition label_field (label : Z) : Field := mkField [label] true.

Definition example_instance (tokens : list Z) (label : Z) : Instance :=
  {[ "text" := text_field tokens; "label" := label_field label ]}.

Definition example_data : DataSet :=
  [ example_instance [0; 1; 2; 3]%Z 0%Z;
    example_instance [4; 5; 2; 6; 7; 8; 9]%Z 1%Z;
    example_instance [10; 11]%Z 0%Z ].

Definition example_iterator : Batch := init example_data 2 SeqSampler 0 false.

(** ** Vocabulary of the properties *)

Definition never_stops {A} (r : Res A) : Prop := r ≠ Raise StopIteration.

Definition nonempty {A} (l : list A) : option (list A) :=
  match l with
  | [] => None
  | _ => Some l
  end.

(** All instances of the dataset carry the same field names. *)
Definition uniform (d : DataSet) : Prop :=
  Forall (λ ins, dom ins = dom (default ∅ (head d))) d.

#[global] Instance uniform_dec (d : DataSet) : Decision (uniform d).
Proof. unfold uniform. apply _. Defined.

(** The true (pre-padding) length of field [name] in an instance. *)
Definition field_len (name : string) (ins : Instance) : nat :=
  from_option origin_length 0 (ins !! name).

(** A field value extended with the filler to length [n]. *)
Definition pad (n : nat) (f : Field) : list Z :=
  value f ++ replicate (n - origin_length f) 0%Z.

(** Per-batch maximum of the lengths of field [name] over the slice. *)
Definition batch_max (d : DataSet) (c e : nat) (name : string) : nat :=
  max_list (slice c e (field_len name <$> d)).

(** The row an instance contributes to the tensor of field [name]: its value
    padded to length [n], if it has the field with tag [tgt]. *)
Definition row (tgt : bool) (n : nat) (name : string) (ins : Instance) : option (list Z) :=
  f ← ins !! name; if decide (is_target f = tgt) then Some (pad n f) else None.

Definition rows (tgt : bool) (d : DataSet) (c e : nat) (name : string) : list (list Z) :=
  omap (row tgt (batch_max d c e name) name) (slice c e d).

Definition stacked (uc tgt : bool) (d : DataSet) (c e : nat) (name : string)
    : option Tensor :=
  (λ rs, on_device uc (Mat Cpu rs)) <$> nonempty (rows tgt d c e name).

(** The original lengths of field [name] over the slice, as a tensor. *)
Definition origin_len (uc : bool) (d : DataSet) (c e : nat) (name : string) : Tensor :=
  on_device uc (LongTensor (Z.of_nat <$> slice c e (field_len name <$> d))).

(** The padding length of every field of the dataset over the slice
    [curidx b, e). *)
Definition padding_lengths (b : Batch) (e : nat) : gmap string nat :=
  map_imap (λ name _, Some (batch_max (dataset b) (curidx b) e name))
           (get_length (dataset b)).

(** The tensors of the fields of an instance that carry the tag [tgt], each
    padded to the batch maximum of its field. *)
Definition tensors (b : Batch) (e : nat) (tgt : bool) (ins : Instance)
    : gmap string Tensor :=
  map_imap (λ name f,
              Some (LongTensor (pad (batch_max (dataset b) (curidx b) e name) f)))
           (filter (λ kf, is_target kf.2 = tgt) ins).

(** The stacked tensors of the fields that carry the tag [tgt]. *)
Definition stacked_all (b : Batch) (e : nat) (tgt : bool) : gmap string Tensor :=
  map_imap (λ name _,
              Some (on_device (use_cuda b)
                      (Mat Cpu (rows tgt (dataset b) (curidx b) e name))))
           (gather (tensors b e tgt <$> slice (curidx b) e (dataset b))).

(** The batch of the slice [curidx b, e): the target mapping holds the
    stacked target fields; the input mapping holds the stacked input fields,
    overlaid with one length entry per stacked input field. *)
Definition batch_spec (b : Batch) (e : nat) (out : BatchOut) : Prop :=
  visited out = range (curidx b) e
  ∧ (∀ name, batch_y out !! name
             = stacked (use_cuda b) true (dataset b) (curidx b) e name)
  ∧ (∀ name, is_Some (stacked (use_cuda b) false (dataset b) (curidx b) e name) →
       batch_x out !! (name +:+ "_origin_len")
       = Some (origin_len (use_cuda b) (dataset b) (curidx b) e name))
  ∧ (∀ key, (∀ name, is_Some (stacked (use_cuda b) false (dataset b) (curidx b) e name) →
                     key ≠ name +:+ "_origin_len") →
       batch_x out !! key = stacked (use_cuda b) false (dataset b) (curidx b) e key)
  ∧ (∀ key t, batch_x out !! key = Some t →
       (∃ name, key = name +:+ "_origin_len"
              ∧ is_Some (stacked (use_cuda b) false (dataset b) (curidx b) e name)
              ∧ t = origin_len (use_cuda b) (dataset b) (curidx b) e name)
       ∨ stacked (use_cuda b) false (dataset b) (curidx b) e key = Some t).

(** The iterator is inside a pass over the ordering [il], and its inputs obey
    the contracts of the collaborators: a positive batch size, an ordering
    with one index per instance, and a dataset whose instances share their
    field names. *)
Definition well_formed (b : Batch) (il : list nat) : Prop :=
  idx_list b = Some il
  ∧ lengths b = Some (get_length (dataset b))
  ∧ length il = length (dataset b)
  ∧ 1 ≤ batch_size b
  ∧ uniform (dataset b).

#[global] Instance well_formed_dec (b : Batch) (il : list nat) : Decision (well_formed b il).
Proof. unfold well_formed. apply _. Defined.

(** A step skips data when positions of the ordering lie between the end of
    its slice and the cursor it leaves behind. *)
Definition skips_data (b : Batch) (il : list nat) : Prop :=
  ∃ p, p < length il ∧ endidx_of b il ≤ p < curidx (next b).1.

Definition ceil_div (n m : nat) : nat := (n + m - 1) / m.

(** The number of instances of each batch of a pass. *)
Definition batch_counts (outs : list BatchOut) : list nat :=
  (λ out, length (visited out)) <$> outs.

(** The dataset positions delivered by a pass, in order. *)
Definition delivered (outs : list BatchOut) : list nat :=
  concat (visited <$> outs).

(** Two states of the iterator that agree on everything a step reads, where
    of the orderings only the lengths are compared. *)
Definition agree_up_to_ordering (b1 b2 : Batch) : Prop :=
  dataset b1 = dataset b2
  ∧ batch_size b1 = batch_size b2
  ∧ use_cuda b1 = use_cuda b2
  ∧ curidx b1 = curidx b2
  ∧ lengths b1 = lengths b2
  ∧ length <$> idx_list b1 = length <$> idx_list b2.

(** What the [for] loop observes of a pass: the batches, or the exception
    that aborted it. *)
Definition outcome (r : option (Batch * Res (list BatchOut)))
    : option (Res (list BatchOut)) :=
  snd <$> r.

(** A computation that can only fail with an exception in [P]. *)
Definition raises_only {A} (P : Exc → Prop) (r : Res A) : Prop :=
  ∀ e, r = Raise e → P e.

(** The exceptions that building a batch can raise. *)
Definition batch_error (e : Exc) : Prop :=
  e = ValueError ∨ e = IndexError ∨ e = KeyError ∨ e = RuntimeError.

(** ** The vocabulary of the running example *)

(** Lines 98-99: [if tokens not in vocab: vocab[tokens] = len(vocab)]. *)
Definition add_token (vocab : gmap string nat) (tokens : string) : gmap string nat :=
  match vocab !! tokens with
  | Some _ => vocab
  | None => <[tokens := size vocab]> vocab
  end.

(** Lines 95-99: the loop over the texts and over the tokens of each text;
    a text is given by the list of its tokens, [text.split()]. *)
Definition build_vocab (texts : list (list string)) : gmap string nat :=
  foldl (λ vocab text, foldl add_token vocab text) ∅ texts.

(** A vocabulary whose ids are the numbers below its size, one per token. *)
Definition dense (vocab : gmap string nat) : Prop :=
  (∀ tok i, vocab !! tok = Some i → i < size vocab)
  ∧ (∀ tok1 tok2 i, vocab !! tok1 = Some i → vocab !! tok2 = Some i → tok1 = tok2)
  ∧ (∀ i, i < size vocab → ∃ tok, vocab !! tok = Some i).

(** Lines 88-91, split into tokens. *)
Definition demo_texts : list (list string) :=
  [ ["i"; "am"; "a"; "cat"];
    ["this"; "is"; "a"; "test"; "of"; "new"; "batch"];
    ["haha"] ].

(** No input field of the slice [c, e) has [key] as the name of its length
    auxiliary. *)
Definition no_auxiliary_name (d : DataSet) (c e : nat) (key : string) : Prop :=
  ∀ name ins f, ins ∈ slice c e d → ins !! name = Some f → is_target f = false →
                key ≠ name +:+ "_origin_len".

(** ** More examples *)

(** A sampler that reverses the order on every other call. *)
Definition FlipSampler : Sampler :=
  λ seed d, (if Nat.even seed then seq 0 (length d) else reverse (seq 0 (length d)), S seed).

Definition five_instances : DataSet := replicate 5 (example_instance [1; 2]%Z 0%Z).

Definition five_instances_iterator : Batch := init five_instances 2 SeqSampler 0 false.

(** The running example after its first batch. *)
Definition example_second_state : Batch := (next (iter example_iterator)).1.

(** The first batch of the running example. *)
Definition example_first_batch : BatchOut :=
  match (next (iter example_iterator)).2 with
  | Ok out => out
  | Raise _ => mkOut [] ∅ ∅
  end.

(** The running example with a sampler that returns the reversed ordering
    on its first call. *)
Definition reversed_iterator : Batch := init example_data 2 FlipSampler 1 false.

(** The second batch of the running example, and the iterator after the
    pass. *)
Definition example_second_batch : BatchOut :=
  match (next example_second_state).2 with
  | Ok out => out
  | Raise _ => mkOut [] ∅ ∅
  end.

Definition example_after_pass : Batch := (next example_second_state).1.

(** The running example with batch size 0, with the device flag set, and a
    dataset of two instances without fields. *)
Definition zero_size_iterator : Batch := init example_data 0 SeqSampler 0 false.

Definition cuda_iterator : Batch := init example_data 2 SeqSampler 0 true.

Definition fieldless_iterator : Batch := init [∅; ∅] 0 SeqSampler 0 false.

(** Instances with an input field whose name is that of the length auxiliary
    of another input field. *)
Definition clash_instance (tokens : list Z) : Instance :=
  {[ "text" := text_field tokens; "text_origin_len" := text_field [7; 7; 7]%Z ]}.

Definition clash_iterator : Batch :=
  init [clash_instance [1]%Z; clash_instance [1; 2]%Z] 2 SeqSampler 0 false.

Definition clash_first_batch : BatchOut :=
  match (next (iter clash_iterator)).2 with
  | Ok out => out
  | Raise _ => mkOut [] ∅ ∅
  end.

Definition cuda_first_batch : BatchOut :=
  match (next (iter cuda_iterator)).2 with
  | Ok out => out
  | Raise _ => mkOut [] ∅ ∅
  end.

(** ** Tactics *)

(** Settles a decidable statement about concrete data by evaluation. *)
Ltac decide_by_computation :=
  apply (bool_decide_unpack _); vm_compute; exact I.

(** Destructs a list whose length is a known numeral into its elements. *)
Ltac explode l H :=
  repeat (destruct l as [|? l]; simpl in H; try discriminate H).

(** * Properties *)

(** ** The error monad and its loops *)

Lemma bind_Ok {A B} (r : Res A) (k : A → Res B) (v : B) :
  r ≫= k = Ok v ↔ ∃ a, r = Ok a ∧ k a = Ok v.
Proof.
  destruct r as [a|e]; simpl; split.
  - intros H. by exists a.
  - by intros (a' & [= ->] & H).
  - done.
  - by intros (a' & [=] & _).
Qed.

Lemma never_stops_Ok {A} (a : A) : never_stops (Ok a).
Proof. done. Qed.

Lemma never_stops_bind {A B} (r : Res A) (k : A → Res B) :
  never_stops r → (∀ a, never_stops (k a)) → never_stops (r ≫= k).
Proof. destruct r as [a|e]; simpl; [by auto | by intros H _ [= ->]]. Qed.

Lemma never_stops_for_each {A S} (body : S → A → Res S) (s : S) (l : list A) :
  (∀ s a, never_stops (body s a)) → never_stops (for_each body s l).
Proof.
  intros Hbody. revert s. induction l as [|a l IH]; intros s; simpl.
  - apply never_stops_Ok.
  - apply never_stops_bind; auto.
Qed.

Lemma never_stops_dict_for {A B} key (f : string → A → Res B) (d : gmap string A) :
  (∀ k a, never_stops (f k a)) → never_stops (dict_for key f d).
Proof.
  intros Hf. apply never_stops_for_each. intros acc [k a].
  apply never_stops_bind; [apply Hf | intros; apply never_stops_Ok].
Qed.

(** A loop that fills a dict under distinct keys, none of whose steps
    raises, yields the dict of all its entries. *)
Lemma for_each_insert_Ok {A B} (key : string → string) (f : string → A → Res B)
    (g : string → A → B) (acc : gmap string B) (l : list (string * A)) :
  NoDup (key <$> l.*1) →
  (∀ k a, (k, a) ∈ l → f k a = Ok (g k a)) →
  for_each (λ acc '(k, a), b ← f k a; Ok (<[key k := b]> acc)) acc l
  = Ok (list_to_map ((λ ka, (key ka.1, g ka.1 ka.2)) <$> l) ∪ acc).
Proof.
  revert acc. induction l as [|[k a] l IH]; intros acc Hnd Hf.
  - simpl. by rewrite (left_id_L ∅ (∪)).
  - rewrite !fmap_cons in Hnd. apply NoDup_cons in Hnd as [Hk Hnd].
    rewrite fmap_cons, list_to_map_cons. cbn [fst snd for_each].
    rewrite (Hf k a) by left. cbn [mbind Res_bind].
    rewrite IH; [|done|by intros; apply Hf; right].
    f_equal.
    rewrite <-insert_union_l. symmetry. apply insert_union_r.
    apply not_elem_of_list_to_map_1.
    rewrite <-list_fmap_compose. intros Hin. apply Hk.
    apply list_elem_of_fmap in Hin as ([k' a'] & Heq & Hin). simpl in Heq.
    cbn [fst]. rewrite Heq. apply list_elem_of_fmap. exists k'. split; [done|].
    apply list_elem_of_fmap. by exists (k', a').
Qed.

Lemma dict_for_Some {A B} (key : string → string) `{!Inj (=) (=) key}
    (f : string → A → Res B) (g : string → A → B) (d : gmap string A) :
  (∀ k a, d !! k = Some a → f k a = Ok (g k a)) →
  ∃ m, dict_for key f d = Ok m
     ∧ (∀ k, m !! key k = g k <$> d !! k)
     ∧ (∀ j, is_Some (m !! j) → ∃ k, j = key k ∧ is_Some (d !! k)).
Proof.
  intros Hf. unfold dict_for.
  assert (Hnd : NoDup (key <$> (map_to_list d).*1)).
  { apply NoDup_fmap; [done | apply NoDup_fst_map_to_list]. }
  rewrite (for_each_insert_Ok key f g); [|done|].
  2:{ intros k a Hin. apply Hf. by apply elem_of_map_to_list. }
  rewrite (right_id_L ∅ (∪)).
  set (l := (λ ka, (key ka.1, g ka.1 ka.2)) <$> map_to_list d).
  assert (Hl : NoDup l.*1).
  { unfold l. rewrite <-list_fmap_compose.
    rewrite <-list_fmap_compose in Hnd. exact Hnd. }
  eexists; split; [done|]. split.
  - intros k. apply option_eq. intros b.
    rewrite <-elem_of_list_to_map by done. unfold l.
    rewrite list_elem_of_fmap. split.
    + intros ([k' a] & [= Hk ->] & Hin). simpl in *.
      apply (inj key) in Hk as ->.
      apply elem_of_map_to_list in Hin. by rewrite Hin.
    + intros Hb. apply fmap_Some in Hb as (a & Ha & ->).
      exists (k, a). split; [done | by apply elem_of_map_to_list].
  - intros j [b Hb]. apply elem_of_list_to_map in Hb; [|done].
    apply list_elem_of_fmap in Hb as ([k a] & [= -> ->] & Hin).
    exists k. split; [done|]. apply elem_of_map_to_list in Hin. by eexists.
Qed.

(** A dict comprehension, or a loop that replaces each value of a dict. *)
Lemma dict_for_id_Ok {A B} (f : string → A → Res B) (g : string → A → B)
    (d : gmap string A) :
  (∀ k a, d !! k = Some a → f k a = Ok (g k a)) →
  dict_for id f d = Ok (map_imap (λ k a, Some (g k a)) d).
Proof.
  intros Hf. destruct (dict_for_Some id f g d Hf) as (m & -> & Hm & _).
  f_equal. apply map_eq. intros k. specialize (Hm k). unfold id in Hm.
  rewrite Hm, map_lookup_imap. by destruct (d !! k).
Qed.

(** ** Slices, ranges and maxima *)

Lemma slice_fmap {A B} (f : A → B) (i j : nat) (l : list A) :
  slice i j (f <$> l) = f <$> slice i j l.
Proof. unfold slice. by rewrite fmap_take, fmap_drop. Qed.

Lemma slice_length {A} (i j : nat) (l : list A) :
  j ≤ length l → length (slice i j l) = j - i.
Proof. intros Hj. unfold slice. rewrite length_take, length_drop. lia. Qed.

Lemma slice_lookup {A} (i j k : nat) (l : list A) :
  k < j - i → slice i j l !! k = l !! (i + k).
Proof. intros Hk. unfold slice. by rewrite lookup_take_lt, lookup_drop. Qed.

Lemma slice_cons {A} (i j : nat) (l : list A) (x : A) :
  l !! i = Some x → i < j → slice i j l = x :: slice (S i) j l.
Proof.
  intros Hx Hij. unfold slice. rewrite (drop_S l x i Hx).
  replace (j - i) with (S (j - S i)) by lia. done.
Qed.

Lemma slice_nil {A} (i j : nat) (l : list A) : j ≤ i → slice i j l = [].
Proof. intros Hji. unfold slice. by replace (j - i) with 0 by lia. Qed.

Lemma slice_elem_of {A} (i j : nat) (l : list A) (x : A) :
  x ∈ slice i j l ↔ ∃ k, i ≤ k < j ∧ l !! k = Some x.
Proof.
  unfold slice. rewrite elem_of_take. split.
  - intros (k & Hk & Hlt). rewrite lookup_drop in Hk. exists (i + k). split; [lia | done].
  - intros (k & Hk & Hx). exists (k - i). rewrite lookup_drop.
    replace (i + (k - i)) with k by lia. split; [done | lia].
Qed.

Lemma range_cons (i j : nat) : i < j → range i j = i :: range (S i) j.
Proof. intros Hij. unfold range. by replace (j - i) with (S (j - S i)) by lia. Qed.

Lemma range_nil (i j : nat) : j ≤ i → range i j = [].
Proof. intros Hji. unfold range. by replace (j - i) with 0 by lia. Qed.

Lemma range_length (i j : nat) : length (range i j) = j - i.
Proof. apply length_seq. Qed.

Lemma range_app (i j k : nat) : i ≤ j → j ≤ k → range i j ++ range j k = range i k.
Proof.
  intros Hij Hjk. unfold range.
  replace (k - i) with ((j - i) + (k - j)) by lia.
  rewrite seq_app. by replace (i + (j - i)) with j by lia.
Qed.

Lemma foldl_max (x : nat) (l : list nat) : foldl Nat.max x l = max_list (x :: l).
Proof.
  revert x. induction l as [|y l IH]; intros x; simpl.
  - lia.
  - rewrite IH. simpl. lia.
Qed.

Lemma py_max_Ok (l : list nat) : l ≠ [] → py_max l = Ok (max_list l).
Proof. destruct l as [|x l]; [done|]. intros _. unfold py_max. by rewrite foldl_max. Qed.

(** ** Names of the length auxiliaries *)

Lemma string_app_length (s t : string) :
  String.length (s +:+ t) = String.length s + String.length t.
Proof. induction s as [|a s IH]; simpl; [done | by rewrite IH]. Qed.

#[global] Instance origin_len_name_inj (t : string) : Inj (=) (=) (λ s, s +:+ t).
Proof.
  intros s1. induction s1 as [|a s1 IH]; intros [|b s2] Heq.
  - done.
  - apply (f_equal String.length) in Heq.
    rewrite !string_app_length in Heq. simpl in Heq. lia.
  - apply (f_equal String.length) in Heq.
    rewrite !string_app_length in Heq. simpl in Heq. lia.
  - simpl in Heq. injection Heq as -> Heq. f_equal. by apply IH.
Qed.

(** ** Transposition of dicts *)

Lemma nonempty_Some {A} (l l' : list A) : nonempty l = Some l' ↔ l = l' ∧ l ≠ [].
Proof.
  destruct l as [|a l]; simpl; split.
  - done.
  - by intros [_ ?].
  - by intros [= <-].
  - by intros [<- _].
Qed.

Lemma nonempty_snoc {A} (l : list A) (a : A) :
  Some (default [] (nonempty l) ++ [a]) = nonempty (l ++ [a]).
Proof. by destruct l. Qed.

Lemma append_all_lookup {A} (acc : gmap string (list A)) (d : gmap string A) k :
  append_all acc d !! k
  = match d !! k with
    | Some a => Some (default [] (acc !! k) ++ [a])
    | None => acc !! k
    end.
Proof.
  unfold append_all. rewrite lookup_merge.
  destruct (acc !! k), (d !! k); done.
Qed.

Lemma gather_lookup {A} (ds : list (gmap string A)) (k : string) :
  gather ds !! k = nonempty (omap (λ d, d !! k) ds).
Proof.
  unfold gather. induction ds as [|d ds IH] using rev_ind.
  - done.
  - rewrite foldl_snoc, append_all_lookup, IH, omap_app. simpl.
    destruct (d !! k) as [a|]; simpl.
    + apply nonempty_snoc.
    + by rewrite (right_id_L [] (++)).
Qed.

Lemma omap_length_le {A B} (g : A → option B) (l : list A) :
  length (omap g l) ≤ length l.
Proof.
  induction l as [|x l IH]; csimpl; [done|].
  destruct (g x); simpl; lia.
Qed.

Lemma omap_total {A B} (g : A → option B) (h : A → B) (l : list A) :
  (∀ x, x ∈ l → g x = Some (h x)) → omap g l = h <$> l.
Proof.
  induction l as [|x l IH]; intros Hg; csimpl; [done|].
  rewrite (Hg x) by left. csimpl. rewrite IH; [done|]. intros; apply Hg; by right.
Qed.

(** ** Stacking *)

Lemma stack_rows_Ok (dev : Device) (n : nat) (rs : list (list Z)) :
  Forall (λ r, length r = n) rs → stack_rows dev n (Vec dev <$> rs) = Ok rs.
Proof.
  induction 1 as [|r rs Hr _ IH]; [done|].
  rewrite fmap_cons. cbn [stack_rows stack_row].
  rewrite decide_True by done. cbn [mbind Res_bind]. by rewrite IH.
Qed.

Lemma stack_Ok (dev : Device) (n : nat) (rs : list (list Z)) :
  rs ≠ [] → Forall (λ r, length r = n) rs → stack (Vec dev <$> rs) = Ok (Mat dev rs).
Proof.
  intros Hne Hall. destruct rs as [|r rs]; [done|].
  unfold stack. rewrite fmap_cons. rewrite <-fmap_cons.
  rewrite (stack_rows_Ok dev (length r)); [done|].
  apply Forall_cons in Hall as [Hr Hall]. rewrite Hr. by constructor.
Qed.

Lemma never_stops_stack (ts : list Tensor) : never_stops (stack ts).
Proof.
  destruct ts as [|[dev data|] ts]; [done| |done]. unfold stack.
  apply never_stops_bind; [|intros; apply never_stops_Ok].
  generalize (length data) as n. generalize (Vec dev data :: ts) as l.
  induction l as [|t l IH]; intros n; simpl; [done|].
  apply never_stops_bind.
  - destruct t; simpl; [case_decide|]; done.
  - intros r. apply never_stops_bind; [apply IH | intros; apply never_stops_Ok].
Qed.

(** ** The dataset store *)

Lemma pad_length (n : nat) (f : Field) : origin_length f ≤ n → length (pad n f) = n.
Proof.
  intros Hn. unfold pad, origin_length in *.
  rewrite length_app, length_replicate. lia.
Qed.

Lemma uniform_dom (d : DataSet) (ins ins' : Instance) :
  uniform d → ins ∈ d → ins' ∈ d → dom ins = dom ins'.
Proof.
  unfold uniform. rewrite Forall_forall. intros Hd H1 H2.
  by rewrite (Hd _ H1), (Hd _ H2).
Qed.

Lemma uniform_is_Some (d : DataSet) (ins ins' : Instance) (name : string) :
  uniform d → ins ∈ d → ins' ∈ d → is_Some (ins !! name) → is_Some (ins' !! name).
Proof.
  intros Hd H1 H2. rewrite <-!elem_of_dom. by rewrite (uniform_dom d ins ins').
Qed.

Lemma get_length_lookup (d : DataSet) (name : string) :
  get_length d !! name = nonempty (omap (λ ins, origin_length <$> ins !! name) d).
Proof.
  unfold get_length. rewrite gather_lookup. f_equal.
  induction d as [|ins d IH]; csimpl; [done|].
  unfold Instance_get_length at 1. rewrite lookup_fmap.
  destruct (ins !! name); csimpl; by rewrite IH.
Qed.

Lemma field_len_Some (name : string) (ins : Instance) :
  is_Some (ins !! name) → origin_length <$> ins !! name = Some (field_len name ins).
Proof. intros [f Hf]. unfold field_len. by rewrite Hf. Qed.

(** In a uniform dataset, the length sequence of a field has one entry per
    instance, in dataset order. *)
Lemma get_length_uniform (d : DataSet) (ins : Instance) (name : string) :
  uniform d → ins ∈ d → is_Some (ins !! name) →
  get_length d !! name = Some (field_len name <$> d).
Proof.
  intros Hd Hin Hname. rewrite get_length_lookup.
  rewrite (omap_total _ (field_len name)).
  - apply nonempty_Some. split; [done|]. intros Hnil.
    apply fmap_nil_inv in Hnil. subst d. by apply elem_of_nil in Hin.
  - intros ins' Hin'. apply field_len_Some.
    by apply (uniform_is_Some d ins ins' name).
Qed.

Lemma get_length_is_Some (d : DataSet) (name : string) :
  is_Some (get_length d !! name) → ∃ ins, ins ∈ d ∧ is_Some (ins !! name).
Proof.
  rewrite get_length_lookup. intros [fl Hfl].
  apply nonempty_Some in Hfl as [<- Hne].
  destruct (omap _ d) as [|n fl] eqn:Heq; [done|].
  assert (Hn : n ∈ omap (λ ins, origin_length <$> ins !! name) d)
    by (rewrite Heq; left).
  apply list_elem_of_omap in Hn as (ins & Hin & Hn).
  exists ins. split; [done|]. by destruct (ins !! name).
Qed.

Lemma get_length_uniform_inv (d : DataSet) (name : string) (fl : list nat) :
  uniform d → get_length d !! name = Some fl → fl = field_len name <$> d.
Proof.
  intros Hd Hfl. destruct (get_length_is_Some d name) as (ins & Hin & Hname).
  { by eexists. }
  rewrite (get_length_uniform d ins name) in Hfl by done. by injection Hfl.
Qed.

(** ** What a batch holds

    The contents of the batch built from the slice [c, e) of dataset [d],
    written directly in terms of the instances of the slice. *)

Lemma omap_fmap_compose {A B C} (f : B → option C) (g : A → B) (l : list A) :
  omap f (g <$> l) = omap (λ x, f (g x)) l.
Proof.
  induction l as [|x l IH]; csimpl; [done|].
  destruct (f (g x)); by rewrite IH.
Qed.

Section make_batch.
Variable b : Batch.
Variable e : nat.
Hypothesis Huni : uniform (dataset b).
Hypothesis Hlo : curidx b < e.
Hypothesis Hhi : e ≤ length (dataset b).

Local Abbreviation d := (dataset b).
Local Abbreviation c := (curidx b).
Local Abbreviation uc := (use_cuda b).

Lemma slice_field_len (name : string) :
  length (slice c e (field_len name <$> d)) = e - c.
Proof. apply slice_length. by rewrite length_fmap. Qed.

Lemma padding_length_Ok :
  padding_length_of c e (get_length d) = Ok (padding_lengths b e).
Proof.
  apply dict_for_id_Ok. intros name fl Hfl.
  apply get_length_uniform_inv in Hfl as ->; [|done].
  apply py_max_Ok. intros Hnil. apply (f_equal length) in Hnil.
  rewrite slice_field_len in Hnil. simpl in Hnil. lia.
Qed.

Lemma padding_lengths_lookup (ins : Instance) (name : string) :
  ins ∈ d → is_Some (ins !! name) →
  padding_lengths b e !! name = Some (batch_max d c e name).
Proof.
  intros Hin Hname. unfold padding_lengths.
  rewrite map_lookup_imap, (get_length_uniform d ins name); done.
Qed.

Lemma field_le_batch_max (ins : Instance) (name : string) (f : Field) :
  ins ∈ slice c e d → ins !! name = Some f →
  origin_length f ≤ batch_max d c e name.
Proof.
  intros Hin Hf. apply max_list_elem_of_le.
  rewrite slice_fmap. apply list_elem_of_fmap. exists ins. split; [|done].
  unfold field_len. by rewrite Hf.
Qed.

Lemma slice_subseteq (ins : Instance) : ins ∈ slice c e d → ins ∈ d.
Proof.
  intros Hin. apply slice_elem_of in Hin as (k & _ & Hk).
  by eapply list_elem_of_lookup_2.
Qed.

Lemma Instance_to_tensor_Ok (tgt : bool) (ins : Instance) :
  ins ∈ slice c e d →
  Instance_to_tensor tgt ins (padding_lengths b e) = Ok (tensors b e tgt ins).
Proof.
  intros Hin. apply dict_for_id_Ok. intros name f Hf.
  apply map_lookup_filter_Some in Hf as [Hf _].
  unfold getitem.
  rewrite (padding_lengths_lookup ins name);
    [|by apply slice_subseteq|by eexists].
  cbn [mbind Res_bind]. unfold Field_to_tensor.
  rewrite decide_True; [done|]. by apply (field_le_batch_max ins).
Qed.

Lemma tensors_lookup (tgt : bool) (ins : Instance) (name : string) :
  tensors b e tgt ins !! name = LongTensor <$> row tgt (batch_max d c e name) name ins.
Proof.
  unfold tensors, row. rewrite map_lookup_imap, map_lookup_filter.
  destruct (ins !! name) as [f|]; simpl; [|done].
  destruct (decide (is_target f = tgt)) as [Ht|Ht].
  - by rewrite option_guard_True.
  - by rewrite option_guard_False.
Qed.

Lemma to_tensor_Ok (i : nat) (ins : Instance) :
  c ≤ i < e → d !! i = Some ins →
  to_tensor d i (padding_lengths b e) = Ok (tensors b e false ins, tensors b e true ins).
Proof.
  intros Hi Hins. unfold to_tensor. rewrite Hins.
  assert (Hin : ins ∈ slice c e d) by (apply slice_elem_of; eauto).
  by rewrite !Instance_to_tensor_Ok.
Qed.

(** The loop of lines 57-62, started anywhere in the slice. *)
Lemma collect_from_Ok (i : nat) (bx by_ : gmap string (list Tensor)) :
  c ≤ i ≤ e →
  for_each (λ '(bx, by_) idx,
              '(x, y) ← to_tensor d idx (padding_lengths b e);
              Ok (append_all bx x, append_all by_ y))
           (bx, by_) (range i e)
  = Ok (foldl append_all bx (tensors b e false <$> slice i e d),
        foldl append_all by_ (tensors b e true <$> slice i e d)).
Proof.
  intros Hi. remember (e - i) as n eqn:Hn.
  revert i bx by_ Hi Hn. induction n as [|n IH]; intros i bx by_ Hi Hn.
  - rewrite range_nil, !slice_nil by lia. done.
  - destruct (lookup_lt_is_Some_2 d i) as [ins Hins]; [lia|].
    rewrite range_cons, !(slice_cons i e d ins) by (done || lia).
    cbn [for_each]. rewrite (to_tensor_Ok i ins) by (done || lia).
    cbn [mbind Res_bind]. rewrite IH by lia. by rewrite !fmap_cons.
Qed.

Lemma collect_Ok :
  collect d c e (padding_lengths b e)
  = Ok (gather (tensors b e false <$> slice c e d),
        gather (tensors b e true <$> slice c e d)).
Proof. unfold collect. rewrite collect_from_Ok by lia. done. Qed.

Lemma rows_length (tgt : bool) (name : string) :
  Forall (λ r, length r = batch_max d c e name) (rows tgt d c e name).
Proof.
  apply Forall_forall. intros r Hr. unfold rows in Hr.
  apply list_elem_of_omap in Hr as (ins & Hin & Hr). unfold row in Hr.
  destruct (ins !! name) as [f|] eqn:Hf; simpl in Hr; [|done].
  case_decide; [|done]. injection Hr as <-.
  apply pad_length. by apply (field_le_batch_max ins).
Qed.

Lemma gather_tensors_lookup (tgt : bool) (name : string) :
  gather (tensors b e tgt <$> slice c e d) !! name
  = nonempty (LongTensor <$> rows tgt d c e name).
Proof.
  rewrite gather_lookup, omap_fmap_compose. f_equal. unfold rows.
  rewrite list_fmap_omap. apply list_omap_ext, Forall2_same_length_lookup.
  split; [done|]. intros i ins ins' H1 H2. rewrite H1 in H2.
  injection H2 as <-. apply tensors_lookup.
Qed.

Lemma stack_all_Ok (tgt : bool) :
  stack_all uc (gather (tensors b e tgt <$> slice c e d))
  = Ok (stacked_all b e tgt).
Proof.
  apply (dict_for_id_Ok _ (λ name _, on_device uc (Mat Cpu (rows tgt d c e name)))).
  intros name tl Htl. rewrite gather_tensors_lookup in Htl.
  apply nonempty_Some in Htl as [<- Hne].
  rewrite (stack_Ok Cpu (batch_max d c e name)); [done| |apply rows_length].
  intros Hnil. by rewrite Hnil in Hne.
Qed.

Lemma stacked_all_lookup (tgt : bool) (name : string) :
  stacked_all b e tgt !! name = stacked uc tgt d c e name.
Proof.
  unfold stacked_all. rewrite map_lookup_imap, gather_tensors_lookup.
  unfold stacked. by destruct (rows tgt d c e name).
Qed.

Lemma stacked_is_Some (tgt : bool) (name : string) :
  is_Some (stacked uc tgt d c e name) →
  ∃ ins f, ins ∈ slice c e d ∧ ins !! name = Some f ∧ is_target f = tgt.
Proof.
  unfold stacked. intros [t Ht]. apply fmap_Some in Ht as (rs & Hrs & _).
  apply nonempty_Some in Hrs as [Hrs Hne].
  destruct rs as [|r rs]; [done|].
  assert (Hr : r ∈ rows tgt d c e name) by (rewrite Hrs; left).
  apply list_elem_of_omap in Hr as (ins & Hin & Hr). unfold row in Hr.
  destruct (ins !! name) as [f|] eqn:Hf; simpl in Hr; [|done].
  case_decide; [|done]. by exists ins, f.
Qed.

Lemma stacked_is_Some_2 (tgt : bool) (name : string) (ins : Instance) (f : Field) :
  ins ∈ slice c e d → ins !! name = Some f → is_target f = tgt →
  is_Some (stacked uc tgt d c e name).
Proof.
  intros Hin Hf Htgt. unfold stacked. apply fmap_is_Some.
  assert (Hr : pad (batch_max d c e name) f ∈ rows tgt d c e name).
  { apply list_elem_of_omap. exists ins. split; [done|].
    unfold row. rewrite Hf. simpl. by rewrite decide_True. }
  destruct (rows tgt d c e name); [by apply elem_of_nil in Hr | by eexists].
Qed.

Lemma origin_lengths_lookup (name : string) :
  is_Some (stacked uc false d c e name) →
  origin_lengths_of c e (get_length d) !! name
  = Some (slice c e (field_len name <$> d)).
Proof.
  intros Hs. apply stacked_is_Some in Hs as (ins & f & Hin & Hf & _).
  unfold origin_lengths_of. rewrite lookup_fmap, (get_length_uniform d ins name); [done|done| |by eexists].
  by apply slice_subseteq.
Qed.

Lemma origin_length_Ok :
  ∃ batch_origin_length,
    origin_length_entries uc (origin_lengths_of c e (get_length d))
                          (stacked_all b e false)
    = Ok batch_origin_length
    ∧ (∀ name, batch_origin_length !! (name +:+ "_origin_len")
               = (λ _, origin_len uc d c e name) <$> stacked uc false d c e name)
    ∧ (∀ key, is_Some (batch_origin_length !! key) →
              ∃ name, key = name +:+ "_origin_len"
                    ∧ is_Some (stacked uc false d c e name)).
Proof.
  destruct (dict_for_Some (λ name, name +:+ "_origin_len")
              (λ name (_ : Tensor),
                 ol ← getitem (origin_lengths_of c e (get_length d)) name;
                         Ok (on_device uc (LongTensor (Z.of_nat <$> ol))))
              (λ name _, origin_len uc d c e name) (stacked_all b e false))
    as (m & Hm & Hkey & Hdom).
  - intros name t Ht. unfold getitem.
    rewrite origin_lengths_lookup; [done|].
    rewrite <-stacked_all_lookup. by eexists.
  - exists m. split; [done|]. split.
    + intros name. by rewrite Hkey, stacked_all_lookup.
    + intros key Hsome. destruct (Hdom key Hsome) as (name & -> & Hname).
      exists name. by rewrite <-stacked_all_lookup.
Qed.

(** The batch built from a non-empty slice of a uniform dataset. *)
Lemma make_batch_Ok :
  ∃ out, make_batch b (get_length d) e = Ok out ∧ batch_spec b e out.
Proof.
  unfold batch_spec.
  destruct origin_length_Ok as (bol & Hbol & Hkey & Hdom).
  unfold make_batch. rewrite padding_length_Ok. cbn [mbind Res_bind].
  rewrite collect_Ok. cbn [mbind Res_bind].
  rewrite !stack_all_Ok. cbn [mbind Res_bind].
  rewrite Hbol. cbn [mbind Res_bind].
  eexists. split; [done|]. cbn [visited batch_x batch_y].
  split; [done|]. split; [apply stacked_all_lookup|]. split; [|split].
  - intros name Hs. rewrite lookup_union_l', Hkey.
    + destruct Hs as [t ->]. done.
    + rewrite Hkey. destruct Hs as [t ->]. by eexists.
  - intros key Hkey'. rewrite lookup_union_r; [apply stacked_all_lookup|].
    destruct (bol !! key) eqn:Hb; [|done].
    destruct (Hdom key) as (name & -> & Hs); [by eexists|].
    by destruct (Hkey' name Hs).
  - intros key t Ht. apply lookup_union_Some_raw in Ht as [Ht|[_ Ht]].
    + left. destruct (Hdom key) as (name & -> & Hs); [by eexists|].
      exists name. split; [done|]. split; [done|].
      rewrite Hkey in Ht. destruct Hs as [t' Ht']. rewrite Ht' in Ht.
      by injection Ht.
    + right. by rewrite <-stacked_all_lookup.
Qed.
End make_batch.

(** ** Steps *)

Lemma endidx_of_bounds (b : Batch) (il : list nat) :
  1 ≤ batch_size b → curidx b < length il →
  curidx b < endidx_of b il ≤ length il.
Proof. unfold endidx_of. lia. Qed.

Lemma well_formed_set_curidx (b : Batch) (il : list nat) (c : nat) :
  well_formed b il → well_formed (set_curidx b c) il.
Proof. done. Qed.

Lemma never_stops_to_tensor (d : DataSet) (i : nat) (pl : gmap string nat) :
  never_stops (to_tensor d i pl).
Proof.
  unfold to_tensor. destruct (d !! i) as [ins|]; [|done].
  assert (Hins : ∀ tgt, never_stops (Instance_to_tensor tgt ins pl)).
  { intros tgt. apply never_stops_dict_for. intros name f.
    apply never_stops_bind.
    - unfold getitem. by destruct (pl !! name).
    - intros n. unfold Field_to_tensor. by case_decide. }
  apply never_stops_bind; [apply Hins|]. intros x.
  apply never_stops_bind; [apply Hins|]. intros y. apply never_stops_Ok.
Qed.

(** Nothing inside the [else] branch of [__next__] raises [StopIteration]. *)
Lemma never_stops_make_batch (b : Batch) (lens : gmap string (list nat)) (e : nat) :
  never_stops (make_batch b lens e).
Proof.
  unfold make_batch.
  apply never_stops_bind.
  { apply never_stops_dict_for. intros _ fl. unfold py_max.
    by destruct (slice _ _ fl). }
  intros pl. apply never_stops_bind.
  { apply never_stops_for_each. intros [bx by_] idx.
    apply never_stops_bind; [apply never_stops_to_tensor|].
    intros [x y]. apply never_stops_Ok. }
  intros [xs ys].
  assert (Hst : ∀ uc m, never_stops (stack_all uc m)).
  { intros uc m. apply never_stops_dict_for. intros _ tl.
    apply never_stops_bind; [apply never_stops_stack | intros; apply never_stops_Ok]. }
  apply never_stops_bind; [apply Hst|]. intros sx.
  apply never_stops_bind; [apply Hst|]. intros sy.
  apply never_stops_bind; [|intros; apply never_stops_Ok].
  apply never_stops_dict_for. intros name _.
  apply never_stops_bind; [|intros; apply never_stops_Ok].
  unfold getitem. by destruct (_ !! name).
Qed.

Lemma make_batch_visited (b : Batch) (lens : gmap string (list nat)) (e : nat) out :
  make_batch b lens e = Ok out → visited out = range (curidx b) e.
Proof.
  unfold make_batch. intros H.
  apply bind_Ok in H as (pl & _ & H).
  apply bind_Ok in H as ([xs ys] & _ & H).
  apply bind_Ok in H as (sx & _ & H).
  apply bind_Ok in H as (sy & _ & H).
  apply bind_Ok in H as (bol & _ & H).
  by injection H as <-.
Qed.

(** The two outcomes of a step that do not depend on the dataset. *)
Lemma next_StopIteration (b : Batch) (il : list nat) :
  idx_list b = Some il → length il ≤ curidx b → next b = (b, Raise StopIteration).
Proof. intros Hil Hc. unfold next. rewrite Hil. by rewrite decide_True. Qed.

Lemma next_Ok_inv (b b' : Batch) (out : BatchOut) :
  next b = (b', Ok out) →
  ∃ il, idx_list b = Some il ∧ curidx b < length il
      ∧ b' = set_curidx b (curidx b + endidx_of b il)
      ∧ visited out = range (curidx b) (endidx_of b il).
Proof.
  unfold next. destruct (idx_list b) as [il|]; [|done].
  case_decide as Hc; [done|]. destruct (lengths b) as [lens|]; [|done].
  destruct (make_batch b lens (endidx_of b il)) as [out'|e] eqn:Hmk; [|done].
  intros [= <- <-]. exists il. repeat split; [lia|].
  by apply make_batch_visited in Hmk.
Qed.

Lemma next_Raise_inv (b b' : Batch) (e : Exc) : next b = (b', Raise e) → b' = b.
Proof.
  unfold next. destruct (idx_list b) as [il|]; [|by intros [= <-]].
  case_decide; [by intros [= <-]|]. destruct (lengths b) as [lens|]; [|by intros [= <-]].
  destruct (make_batch b lens _); [done | by intros [= <-]].
Qed.

(** A raised [StopIteration] means that the cursor has consumed the ordering. *)
Lemma next_StopIteration_inv (b b' : Batch) (il : list nat) :
  idx_list b = Some il → next b = (b', Raise StopIteration) → length il ≤ curidx b.
Proof.
  unfold next. intros ->. case_decide as Hc; [done|].
  destruct (lengths b) as [lens|]; [|done].
  destruct (make_batch b lens _) as [out|e] eqn:Hmk; [done|].
  intros [= _ ->]. by destruct (never_stops_make_batch b lens (endidx_of b il)).
Qed.

(** A step of a well-formed iterator whose cursor is inside the ordering
    produces the batch of the slice [curidx, endidx). *)
Lemma next_Ok (b : Batch) (il : list nat) :
  well_formed b il → curidx b < length il →
  ∃ out,
    next b = (set_curidx b (curidx b + endidx_of b il), Ok out)
    ∧ next_fixed b = (set_curidx b (endidx_of b il), Ok out)
    ∧ make_batch b (get_length (dataset b)) (endidx_of b il) = Ok out
    ∧ batch_spec b (endidx_of b il) out.
Proof.
  intros (Hil & Hlens & Hlen & Hbs & Huni) Hc.
  destruct (endidx_of_bounds b il Hbs Hc) as [Hlo Hhi].
  destruct (make_batch_Ok b (endidx_of b il)) as (out & Hout & Hspec); [done|done|lia|].
  exists out. unfold next, next_fixed. rewrite Hil, Hlens, Hout.
  rewrite !decide_False by lia. done.
Qed.

(** ** Passes *)

Lemma drain_StopIteration step (fuel : nat) (b b' : Batch) :
  step b = (b', Raise StopIteration) → drain step (S fuel) b = Some (b', Ok []).
Proof. intros H. simpl. by rewrite H. Qed.

Lemma drain_Ok step (fuel : nat) (b b1 b2 : Batch) out outs :
  step b = (b1, Ok out) → drain step fuel b1 = Some (b2, Ok outs) →
  drain step (S fuel) b = Some (b2, Ok (out :: outs)).
Proof. intros H1 H2. simpl. by rewrite H1, H2. Qed.

(** With a positive batch size every successful step moves the cursor
    forward, so the loop runs out of ordering before it runs out of fuel. *)
Lemma drain_terminates (b : Batch) (il : list nat) (fuel : nat) :
  idx_list b = Some il → 1 ≤ batch_size b → length il - curidx b < fuel →
  is_Some (drain next fuel b).
Proof.
  revert b. induction fuel as [|fuel IH]; intros b Hil Hbs Hfuel; [lia|].
  simpl. destruct (next b) as [b' [out|e]] eqn:Hnext.
  - apply next_Ok_inv in Hnext as (il' & Hil' & Hc & -> & _).
    rewrite Hil in Hil'. injection Hil' as <-.
    destruct (endidx_of_bounds b il Hbs Hc) as [Hlo Hhi].
    destruct (IH (set_curidx b (curidx b + endidx_of b il))) as [[b'' r] ->];
      [done|done|simpl; lia|].
    destruct r; by eexists.
  - destruct e; by eexists.
Qed.

(** On well-formed inputs the loop ends with [StopIteration]. *)
Lemma drain_well_formed (b : Batch) (il : list nat) (fuel : nat) :
  well_formed b il → length il - curidx b < fuel →
  ∃ b' outs, drain next fuel b = Some (b', Ok outs) ∧ length il ≤ curidx b'.
Proof.
  revert b. induction fuel as [|fuel IH]; intros b Hwf Hfuel; [lia|].
  destruct (decide (length il ≤ curidx b)) as [Hc|Hc].
  - exists b, []. split; [|done].
    apply drain_StopIteration, (next_StopIteration b il); [apply Hwf | done].
  - destruct (next_Ok b il Hwf) as (out & Hnext & _); [lia|].
    assert (Hbs : 1 ≤ batch_size b) by apply Hwf.
    destruct (endidx_of_bounds b il Hbs) as [Hlo Hhi]; [lia|].
    destruct (IH (set_curidx b (curidx b + endidx_of b il))) as (b' & outs & Hd & Hb');
      [by apply well_formed_set_curidx | simpl; lia |].
    exists b', (out :: outs). split; [|done]. by eapply drain_Ok.
Qed.

(** What [__iter__] leaves behind is well-formed as soon as the collaborators
    obey their contracts. *)
Lemma iter_well_formed (b : Batch) :
  1 ≤ batch_size b → uniform (dataset b) →
  length (sampler b (seed b) (dataset b)).1 = length (dataset b) →
  well_formed (iter b) (sampler b (seed b) (dataset b)).1.
Proof.
  intros Hbs Huni Hlen. unfold iter, well_formed.
  destruct (sampler b (seed b) (dataset b)) as [il sd]. done.
Qed.

(** ** Start of a pass *)

Lemma iter_twice_differs :
  idx_list (iter (iter (init example_data 2 FlipSampler 0 false)))
  ≠ idx_list (iter (init example_data 2 FlipSampler 0 false)).
Proof. by vm_compute. Qed.

(** C8: entering a pass invokes the sampler on the dataset and stores the
    ordering it returns (threading the sampler's state), resets the cursor to
    0 and snapshots the length sequences of the dataset; the result does not
    depend on the cursor, the ordering or the snapshot of the state it is
    called in, so calling it during a pass restarts from the reset state; and
    no step changes the ordering, the snapshot or the sampler's state. *)
Theorem iter_resets (b : Batch) :
  idx_list (iter b) = Some (sampler b (seed b) (dataset b)).1
  ∧ seed (iter b) = (sampler b (seed b) (dataset b)).2
  ∧ curidx (iter b) = 0
  ∧ lengths (iter b) = Some (get_length (dataset b))
  ∧ dataset (iter b) = dataset b
  ∧ batch_size (iter b) = batch_size b
  ∧ sampler (iter b) = sampler b
  ∧ use_cuda (iter b) = use_cuda b
  ∧ (∀ il c lens,
       iter (mkBatch (dataset b) (batch_size b) (sampler b) (seed b) (use_cuda b)
                     il c lens) = iter b)
  ∧ (∀ b' r, next b = (b', r) →
       idx_list b' = idx_list b ∧ lengths b' = lengths b ∧ seed b' = seed b).
Proof.
  assert (Hstep : ∀ b' r, next b = (b', r) →
            idx_list b' = idx_list b ∧ lengths b' = lengths b ∧ seed b' = seed b).
  { intros b' [out|e] Hnext.
    - apply next_Ok_inv in Hnext as (il & _ & _ & -> & _). done.
    - apply next_Raise_inv in Hnext as ->. done. }
  unfold iter. destruct (sampler b (seed b) (dataset b)) as [il sd] eqn:Hs.
  do 8 (split; [done|]). split; [|exact Hstep].
  intros il' c lens. simpl. by rewrite Hs.
Qed.

(** ** End of a pass *)

(** C7: inside a pass, a step raises StopIteration exactly when the cursor is
    at or beyond the length of the ordering; it then returns no batch and
    leaves the iterator as it was; and when the cursor is inside the ordering
    (batch size positive, one index per instance, instances with the same
    fields) the step returns a batch. *)
Theorem next_end_of_sequence (b : Batch) (il : list nat) :
  idx_list b = Some il →
  ((next b).2 = Raise StopIteration ↔ length il ≤ curidx b)
  ∧ (length il ≤ curidx b → next b = (b, Raise StopIteration))
  ∧ (curidx b < length il → well_formed b il → ∃ b' out, next b = (b', Ok out)).
Proof.
  intros Hil. split; [split|split].
  - destruct (next b) as [b' r] eqn:Hnext. simpl. intros ->.
    by apply (next_StopIteration_inv b b' il).
  - intros Hc. by rewrite (next_StopIteration b il).
  - by apply next_StopIteration.
  - intros Hc Hwf. destruct (next_Ok b il Hwf Hc) as (out & Hnext & _).
    by eexists _, _.
Qed.

Lemma next_end_of_sequence_witness :
  (∃ b' out, next (iter example_iterator) = (b', Ok out))
  ∧ next (set_curidx (iter example_iterator) 5)
    = (set_curidx (iter example_iterator) 5, Raise StopIteration).
Proof.
  split.
  - apply (next_end_of_sequence (iter example_iterator) [0; 1; 2]).
    + reflexivity.
    + simpl. lia.
    + decide_by_computation.
  - apply (next_end_of_sequence (set_curidx (iter example_iterator) 5) [0; 1; 2]).
    + reflexivity.
    + simpl. lia.
Defined.

(** C10: with a positive batch size a pass terminates.  A successful step
    computes an [endidx] strictly beyond the cursor it starts from and moves
    the cursor by at least [endidx - curidx]; hence a loop with more fuel than
    the ordering has indices left always ends, on well-formed inputs with
    StopIteration once the cursor is at or beyond the length of the ordering;
    an empty ordering gives zero batches. *)
Theorem pass_terminates (b : Batch) (il : list nat) :
  idx_list b = Some il → 1 ≤ batch_size b →
  (∀ b' out, next b = (b', Ok out) →
     curidx b < endidx_of b il
     ∧ curidx b' = curidx b + endidx_of b il
     ∧ curidx b + (endidx_of b il - curidx b) ≤ curidx b')
  ∧ (∀ fuel, length il - curidx b < fuel → is_Some (drain next fuel b))
  ∧ (well_formed b il → ∀ fuel, length il - curidx b < fuel →
       ∃ b' outs, drain next fuel b = Some (b', Ok outs) ∧ length il ≤ curidx b')
  ∧ (il = [] → ∀ fuel, drain next (S fuel) b = Some (b, Ok [])).
Proof.
  intros Hil Hbs. split; [|split; [|split]].
  - intros b' out Hnext.
    apply next_Ok_inv in Hnext as (il' & Hil' & Hc & -> & _).
    rewrite Hil in Hil'. injection Hil' as <-.
    pose proof (endidx_of_bounds b il Hbs Hc). simpl. lia.
  - intros fuel Hfuel. by apply (drain_terminates b il).
  - intros Hwf fuel Hfuel. by apply drain_well_formed.
  - intros -> fuel. apply drain_StopIteration, (next_StopIteration b []); [done|].
    simpl. lia.
Qed.

Lemma pass_terminates_witness :
  (∃ b' outs, one_pass 4 example_iterator = Some (b', Ok outs) ∧ 3 ≤ curidx b')
  ∧ one_pass 1 (init [] 2 SeqSampler 0 false)
    = Some (iter (init [] 2 SeqSampler 0 false), Ok []).
Proof.
  split.
  - apply (pass_terminates (iter example_iterator) [0; 1; 2]).
    + reflexivity.
    + simpl. lia.
    + decide_by_computation.
    + simpl. lia.
  - apply (pass_terminates (iter (init [] 2 SeqSampler 0 false)) []).
    + reflexivity.
    + simpl. lia.
    + reflexivity.
Defined.

(** ** How far a pass gets *)

(** C1 (the code falls short of it): on five instances with batch size 2 a
    full pass of the iterator yields two batches, not ceil(5/2) = 3, and their
    instance counts sum to 4, not 5: after the second batch the cursor is
    2 + 4 = 6 and position 4 is never delivered. *)
Theorem one_pass_five_instances :
  ∃ b' outs,
    one_pass 6 five_instances_iterator = Some (b', Ok outs)
    ∧ curidx b' = 6
    ∧ visited <$> outs = [[0; 1]; [2; 3]]
    ∧ length outs = 2 ∧ ceil_div 5 2 = 3
    ∧ sum_list (batch_counts outs) = 4.
Proof.
  eexists _, _. split; [vm_compute; reflexivity|]. by vm_compute.
Qed.

(** The cursor never moves backwards, and a batch only holds positions at or
    after the cursor it was started from. *)
Lemma drain_visited_ge (fuel : nat) (b b' : Batch) (outs : list BatchOut) :
  drain next fuel b = Some (b', Ok outs) →
  ∀ out p, out ∈ outs → p ∈ visited out → curidx b ≤ p.
Proof.
  revert b outs. induction fuel as [|fuel IH]; intros b outs Hd out p Hout Hp; [done|].
  simpl in Hd. destruct (next b) as [b1 [out1|e]] eqn:Hnext.
  - destruct (drain next fuel b1) as [[b2 [outs1|e]]|] eqn:Hd1; [|done|done].
    simplify_eq.
    apply next_Ok_inv in Hnext as (il & Hil & Hc & -> & Hvis).
    apply elem_of_cons in Hout as [->|Hout].
    + rewrite Hvis in Hp. apply elem_of_seq in Hp. lia.
    + specialize (IH _ _ Hd1 out p Hout Hp). simpl in IH. lia.
  - destruct e; simplify_eq; by apply elem_of_nil in Hout.
Qed.

(** C2 (as stated it fails): in the pass over the three-instance example the
    second batch starts from the nonzero cursor 2 and the cursor overshoots
    to 5, yet no data is skipped: the slice already ends at the end of the
    ordering, and the pass delivers the positions 0, 1 and 2. *)
Lemma overshoot_without_skipping :
  well_formed example_second_state [0; 1; 2]
  ∧ curidx example_second_state = 2
  ∧ endidx_of example_second_state [0; 1; 2] = 3
  ∧ curidx (next example_second_state).1 = 5
  ∧ ¬ skips_data example_second_state [0; 1; 2]
  ∧ ∃ b' outs,
      one_pass 3 example_iterator = Some (b', Ok outs)
      ∧ delivered outs = [0; 1; 2].
Proof.
  split; [decide_by_computation|].
  do 3 (split; [vm_compute; reflexivity|]). split.
  - intros (p & Hp & Hskip & _). vm_compute in Hp, Hskip. lia.
  - eexists _, _. split; [vm_compute; reflexivity|]. by vm_compute.
Qed.

(** C2 (amended): a step adds [endidx] to the cursor instead of setting the
    cursor to [endidx].  From cursor 0 the two agree.  From a nonzero cursor
    the new cursor lies strictly beyond [endidx]; the positions from [endidx]
    up to the new cursor are delivered by no later batch of the pass; and
    some position of the ordering is skipped in this way exactly when the
    slice ends before the end of the ordering. *)
Theorem next_overshoots (b : Batch) (il : list nat) :
  well_formed b il → curidx b < length il →
  curidx (next b).1 = curidx b + endidx_of b il
  ∧ (curidx b = 0 → curidx (next b).1 = endidx_of b il)
  ∧ (0 < curidx b →
       endidx_of b il < curidx (next b).1
       ∧ (skips_data b il ↔ endidx_of b il < length il)
       ∧ (∀ fuel b' outs out p,
            drain next fuel (next b).1 = Some (b', Ok outs) →
            endidx_of b il ≤ p < curidx (next b).1 →
            out ∈ outs → p ∉ visited out)).
Proof.
  intros Hwf Hc. destruct (next_Ok b il Hwf Hc) as (out & Hnext & _).
  assert (Hbs : 1 ≤ batch_size b) by apply Hwf.
  destruct (endidx_of_bounds b il Hbs Hc) as [Hlo Hhi].
  rewrite Hnext. cbn [fst set_curidx curidx].
  split; [done|]. split; [lia|]. intros Hpos. split; [lia|]. split.
  - unfold skips_data. rewrite Hnext. cbn [fst set_curidx curidx]. split.
    + intros (p & Hp & Hlo' & _). lia.
    + intros He. exists (endidx_of b il). lia.
  - intros fuel b' outs out' p Hd Hp Hout Hvis.
    pose proof (drain_visited_ge _ _ _ _ Hd out' p Hout Hvis) as Hge.
    simpl in Hge. lia.
Qed.

Lemma next_overshoots_witness :
  curidx (next (set_curidx (iter five_instances_iterator) 2)).1 = 2 + 4
  ∧ skips_data (set_curidx (iter five_instances_iterator) 2) [0; 1; 2; 3; 4].
Proof.
  assert (Hwf : well_formed (set_curidx (iter five_instances_iterator) 2) [0; 1; 2; 3; 4])
    by decide_by_computation.
  assert (Hc : curidx (set_curidx (iter five_instances_iterator) 2)
               < length [0; 1; 2; 3; 4]) by (simpl; lia).
  destruct (next_overshoots _ _ Hwf Hc) as (Hcur & _ & Hpos).
  split; [exact Hcur|].
  destruct Hpos as (_ & Hskip & _); [simpl; lia|].
  apply Hskip. vm_compute. lia.
Defined.

(** ** The pass as evidently intended *)

Lemma ceil_div_0 (m : nat) : 1 ≤ m → ceil_div 0 m = 0.
Proof. intros Hm. unfold ceil_div. apply Nat.div_small. lia. Qed.

Lemma ceil_div_le (n m : nat) : 1 ≤ n ≤ m → ceil_div n m = 1.
Proof.
  intros Hn. unfold ceil_div. symmetry.
  apply (Nat.div_unique _ _ 1 (n - 1)); lia.
Qed.

Lemma ceil_div_step (n m : nat) : 1 ≤ m → m < n → ceil_div n m = S (ceil_div (n - m) m).
Proof.
  intros Hm Hn. unfold ceil_div.
  replace (n + m - 1) with ((n - m + m - 1) + 1 * m) by lia.
  rewrite Nat.div_add by lia. lia.
Qed.

(** With the cursor set to [endidx], the batches of a pass partition the rest
    of the ordering: ceil(rest / batch_size) batches, all of batch_size
    instances except possibly the last. *)
Lemma drain_fixed_complete (b : Batch) (il : list nat) (fuel : nat) :
  well_formed b il → curidx b ≤ length il → length il - curidx b < fuel →
  ∃ b' outs,
    drain next_fixed fuel b = Some (b', Ok outs)
    ∧ delivered outs = range (curidx b) (length il)
    ∧ length outs = ceil_div (length il - curidx b) (batch_size b)
    ∧ sum_list (batch_counts outs) = length il - curidx b
    ∧ (∀ i out, outs !! i = Some out → S i < length outs →
         length (visited out) = batch_size b)
    ∧ Forall (λ out, 1 ≤ length (visited out) ≤ batch_size b) outs.
Proof.
  revert b. induction fuel as [|fuel IH]; intros b Hwf Hle Hfuel; [lia|].
  assert (Hbs : 1 ≤ batch_size b) by apply Hwf.
  destruct (decide (length il ≤ curidx b)) as [Hc|Hc].
  - exists b, []. assert (curidx b = length il) as Heq by lia.
    split.
    { apply drain_StopIteration. unfold next_fixed.
      destruct Hwf as (-> & _). by rewrite decide_True. }
    rewrite Heq, Nat.sub_diag, ceil_div_0 by done.
    repeat split; [by rewrite range_nil|done|constructor].
  - destruct (next_Ok b il Hwf) as (out & _ & Hnext & Hmk & _); [lia|].
    apply make_batch_visited in Hmk.
    destruct (endidx_of_bounds b il Hbs) as [Hlo Hhi]; [lia|].
    destruct (IH (set_curidx b (endidx_of b il)))
      as (b' & outs & Hd & Hdel & Hlen & Hsum & Hfull & Hall);
      [by apply well_formed_set_curidx | done | simpl; lia |].
    cbn [curidx batch_size set_curidx] in Hdel, Hlen, Hsum, Hfull, Hall.
    exists b', (out :: outs). split; [by eapply drain_Ok|].
    assert (Hcount : length (visited out) = endidx_of b il - curidx b)
      by (by rewrite Hmk, range_length).
    split; [|split; [|split; [|split]]].
    + unfold delivered in *. rewrite fmap_cons. cbn [concat].
      rewrite Hdel, Hmk. apply range_app; lia.
    + cbn [length]. rewrite Hlen. unfold endidx_of in *.
      destruct (decide (length il - curidx b ≤ batch_size b)) as [Hlast|Hmore].
      * replace (length il - _) with 0 by lia.
        rewrite ceil_div_0, ceil_div_le by lia. done.
      * rewrite (ceil_div_step (length il - curidx b)) by lia.
        do 2 f_equal. lia.
    + unfold batch_counts in *. rewrite fmap_cons. cbn [sum_list sum_list_with].
      rewrite Hcount. fold (sum_list ((λ out, length (visited out)) <$> outs)).
      rewrite Hsum. unfold id. lia.
    + intros [|i] out' Hi Hlt.
      * injection Hi as <-. rewrite Hcount.
        destruct outs as [|out1 outs]; [simpl in Hlt; lia|].
        assert (Hne : ceil_div (length il - endidx_of b il) (batch_size b) ≠ 0)
          by (by rewrite <-Hlen).
        unfold endidx_of in *.
        destruct (decide (curidx b + batch_size b ≤ length il)); [lia|].
        destruct Hne. replace (length il - _) with 0 by lia.
        by apply ceil_div_0.
      * apply (Hfull i); [done|]. simpl in Hlt. lia.
    + constructor; [|done]. rewrite Hcount. unfold endidx_of in *. lia.
Qed.

Lemma one_pass_fixed_complete (b : Batch) (fuel : nat) :
  1 ≤ batch_size b → uniform (dataset b) →
  (sampler b (seed b) (dataset b)).1 ≡ₚ seq 0 (length (dataset b)) →
  length (dataset b) < fuel →
  ∃ b' outs,
    one_pass_fixed fuel b = Some (b', Ok outs)
    ∧ length outs = ceil_div (length (dataset b)) (batch_size b)
    ∧ sum_list (batch_counts outs) = length (dataset b)
    ∧ (∀ i out, outs !! i = Some out → S i < length outs →
         length (visited out) = batch_size b)
    ∧ delivered outs = seq 0 (length (dataset b)).
Proof.
  intros Hbs Huni Hperm Hfuel.
  assert (Hlen : length (sampler b (seed b) (dataset b)).1 = length (dataset b)).
  { by rewrite Hperm, length_seq. }
  pose proof (iter_well_formed b Hbs Huni Hlen) as Hwf.
  assert (Hc0 : curidx (iter b) = 0).
  { unfold iter. by destruct (sampler b (seed b) (dataset b)). }
  assert (Hbs' : batch_size (iter b) = batch_size b).
  { unfold iter. by destruct (sampler b (seed b) (dataset b)). }
  destruct (drain_fixed_complete (iter b) _ fuel Hwf)
    as (b' & outs & Hd & Hdel & Hcount & Hsum & Hfull & _); [lia | lia |].
  rewrite Hc0, Hlen, Hbs', Nat.sub_0_r in *.
  exists b', outs. repeat split; try done.
  rewrite Hdel. unfold range. f_equal. lia.
Qed.

Lemma next_fixed_StopIteration (b : Batch) (il : list nat) :
  idx_list b = Some il → length il ≤ curidx b → next_fixed b = (b, Raise StopIteration).
Proof. intros Hil Hc. unfold next_fixed. rewrite Hil. by rewrite decide_True. Qed.

(** ** Datasets of at most two batches *)

(** Both iterators, started at cursor 0 on an ordering of at most twice the
    batch size. *)
Lemma drain_small (b : Batch) (il : list nat) (fuel : nat) :
  well_formed b il → curidx b = 0 → length il ≤ 2 * batch_size b →
  ∃ b1 b2 outs,
    drain next (3 + fuel) b = Some (b1, Ok outs)
    ∧ drain next_fixed (3 + fuel) b = Some (b2, Ok outs)
    ∧ length outs = ceil_div (length il) (batch_size b)
    ∧ delivered outs = seq 0 (length il).
Proof.
  intros Hwf Hc0 Hsmall.
  assert (Hil : idx_list b = Some il) by apply Hwf.
  assert (Hbs : 1 ≤ batch_size b) by apply Hwf.
  destruct (decide (length il = 0)) as [Hnil|Hne].
  { exists b, b, []. rewrite Hnil, ceil_div_0 by done.
    repeat split.
    - apply drain_StopIteration, (next_StopIteration b il); [done|lia].
    - apply drain_StopIteration, (next_fixed_StopIteration b il); [done|lia]. }
  destruct (next_Ok b il Hwf) as (out0 & Hn0 & Hf0 & Hmk0 & _); [lia|].
  apply make_batch_visited in Hmk0.
  rewrite Hc0 in Hn0, Hmk0. cbn [Nat.add] in Hn0.
  set (b1 := set_curidx b (endidx_of b il)) in *.
  assert (Hwf1 : well_formed b1 il) by (by apply well_formed_set_curidx).
  assert (He0 : endidx_of b il = Nat.min (batch_size b) (length il))
    by (unfold endidx_of; by rewrite Hc0).
  destruct (decide (length il ≤ batch_size b)) as [Hone|Htwo].
  - exists b1, b1, [out0]. repeat split.
    + eapply drain_Ok; [done|].
      apply drain_StopIteration, (next_StopIteration b1 il); [done|]. simpl. lia.
    + eapply drain_Ok; [done|].
      apply drain_StopIteration, (next_fixed_StopIteration b1 il); [done|]. simpl. lia.
    + rewrite ceil_div_le by lia. done.
    + unfold delivered. simpl. rewrite Hmk0, (right_id_L [] (++)).
      unfold range. f_equal. lia.
  - destruct (next_Ok b1 il Hwf1) as (out1 & Hn1 & Hf1 & Hmk1 & _); [simpl; lia|].
    apply make_batch_visited in Hmk1.
    assert (He1 : endidx_of b1 il = length il)
      by (unfold endidx_of; simpl; lia).
    rewrite He1 in Hn1, Hf1, Hmk1. cbn [curidx b1 set_curidx] in Hn1, Hmk1.
    eexists _, _, [out0; out1]. repeat split.
    + eapply drain_Ok; [done|]. eapply drain_Ok; [done|].
      eapply drain_StopIteration, next_StopIteration; [done|]. simpl. lia.
    + eapply drain_Ok; [done|]. eapply drain_Ok; [done|].
      eapply drain_StopIteration, next_fixed_StopIteration; [done|]. simpl. lia.
    + rewrite ceil_div_step, ceil_div_le by lia. done.
    + unfold delivered. simpl. rewrite Hmk0, Hmk1, (right_id_L [] (++)).
      rewrite range_app by lia. unfold range. f_equal. lia.
Qed.

(** ** Datasets of more than two batches *)

Lemma elem_of_delivered (p : nat) (outs : list BatchOut) :
  p ∈ delivered outs ↔ ∃ out, out ∈ outs ∧ p ∈ visited out.
Proof.
  unfold delivered. induction outs as [|out outs IH]; simpl.
  - split; [by intros ?%elem_of_nil | by intros (? & ?%elem_of_nil & _)].
  - rewrite elem_of_app, IH. split.
    + intros [Hp|(out' & Hout & Hp)].
      * exists out. split; [left | done].
      * exists out'. split; [by right | done].
    + intros (out' & Hout & Hp). apply elem_of_cons in Hout as [->|Hout].
      * by left.
      * right. by exists out'.
Qed.

(** On an ordering of more than twice the batch size, the cursor is at three
    times the batch size after the second batch: position 2 * batch_size is
    never delivered, although the pass ends normally. *)
Lemma drain_large (b : Batch) (il : list nat) (fuel : nat) :
  well_formed b il → curidx b = 0 → 2 * batch_size b < length il →
  length il < fuel →
  ∃ b' outs,
    drain next fuel b = Some (b', Ok outs)
    ∧ (2 * batch_size b) ∉ delivered outs.
Proof.
  intros Hwf Hc0 Hlarge Hfuel.
  assert (Hbs : 1 ≤ batch_size b) by apply Hwf.
  destruct fuel as [|[|fuel]]; [lia|lia|].
  destruct (next_Ok b il Hwf) as (out0 & Hn0 & _ & Hmk0 & _); [lia|].
  apply make_batch_visited in Hmk0.
  assert (He0 : endidx_of b il = batch_size b) by (unfold endidx_of; lia).
  rewrite Hc0, He0 in Hn0, Hmk0. cbn [Nat.add] in Hn0.
  set (b1 := set_curidx b (batch_size b)) in *.
  assert (Hwf1 : well_formed b1 il) by (by apply well_formed_set_curidx).
  destruct (next_Ok b1 il Hwf1) as (out1 & Hn1 & _ & Hmk1 & _); [simpl; lia|].
  apply make_batch_visited in Hmk1.
  assert (He1 : endidx_of b1 il = 2 * batch_size b)
    by (unfold endidx_of; simpl; lia).
  rewrite He1 in Hn1, Hmk1. cbn [curidx b1 set_curidx] in Hn1, Hmk1.
  set (b2 := set_curidx b1 (batch_size b + 2 * batch_size b)) in *.
  destruct (drain_well_formed b2 il fuel) as (b' & outs & Hd & _);
    [by apply well_formed_set_curidx | simpl; lia |].
  exists b', (out0 :: out1 :: outs). split.
  - eapply drain_Ok; [done|]. by eapply drain_Ok.
  - intros (out & Hout & Hp)%elem_of_delivered.
    apply elem_of_cons in Hout as [->|Hout].
    { rewrite Hmk0 in Hp. apply elem_of_seq in Hp. lia. }
    apply elem_of_cons in Hout as [->|Hout].
    { rewrite Hmk1 in Hp. apply elem_of_seq in Hp. lia. }
    pose proof (drain_visited_ge _ _ _ _ Hd out _ Hout Hp) as Hge.
    simpl in Hge. lia.
Qed.

(** Beyond twice the batch size the two iterators differ: the pass as written
    leaves position 2 * batch_size out, the pass with the cursor set to
    [endidx] delivers it. *)
Lemma large_dataset_differs (b : Batch) (fuel : nat) :
  1 ≤ batch_size b → uniform (dataset b) →
  (sampler b (seed b) (dataset b)).1 ≡ₚ seq 0 (length (dataset b)) →
  2 * batch_size b < length (dataset b) → length (dataset b) < fuel →
  ∃ b1 b2 outs1 outs2,
    one_pass fuel b = Some (b1, Ok outs1)
    ∧ one_pass_fixed fuel b = Some (b2, Ok outs2)
    ∧ ((2 * batch_size b) ∉ delivered outs1)
    ∧ delivered outs2 = seq 0 (length (dataset b)).
Proof.
  intros Hbs Huni Hperm Hlarge Hfuel.
  assert (Hlen : length (sampler b (seed b) (dataset b)).1 = length (dataset b)).
  { by rewrite Hperm, length_seq. }
  pose proof (iter_well_formed b Hbs Huni Hlen) as Hwf.
  assert (Hc0 : curidx (iter b) = 0).
  { unfold iter. by destruct (sampler b (seed b) (dataset b)). }
  assert (Hbs' : batch_size (iter b) = batch_size b).
  { unfold iter. by destruct (sampler b (seed b) (dataset b)). }
  destruct (drain_large (iter b) _ fuel Hwf Hc0) as (b1 & outs1 & Hd1 & Hout1);
    [rewrite Hbs'; lia | lia |].
  destruct (drain_fixed_complete (iter b) _ fuel Hwf)
    as (b2 & outs2 & Hd2 & Hdel & _); [lia | lia |].
  exists b1, b2, outs1, outs2. rewrite Hbs' in Hout1.
  repeat split; [done|done|done|].
  rewrite Hdel, Hc0, Hlen. unfold range. f_equal. lia.
Qed.

(** C9: when the dataset has at most twice the batch size of instances, the
    iterator as written ([curidx += endidx]) and the iterator with the cursor
    set to [endidx] produce the same sequence of batches in a pass:
    ceil(N / batch_size) batches that deliver every position, hence every
    sampled index, exactly once.  So the two can only differ when
    N > 2 * batch_size. *)
Theorem small_dataset_refinement (b : Batch) (fuel : nat) :
  1 ≤ batch_size b → uniform (dataset b) →
  (sampler b (seed b) (dataset b)).1 ≡ₚ seq 0 (length (dataset b)) →
  length (dataset b) ≤ 2 * batch_size b →
  ∃ b1 b2 outs,
    one_pass (3 + fuel) b = Some (b1, Ok outs)
    ∧ one_pass_fixed (3 + fuel) b = Some (b2, Ok outs)
    ∧ length outs = ceil_div (length (dataset b)) (batch_size b)
    ∧ delivered outs = seq 0 (length (dataset b))
    ∧ delivered outs ≡ₚ (sampler b (seed b) (dataset b)).1.
Proof.
  intros Hbs Huni Hperm Hsmall.
  assert (Hlen : length (sampler b (seed b) (dataset b)).1 = length (dataset b)).
  { by rewrite Hperm, length_seq. }
  pose proof (iter_well_formed b Hbs Huni Hlen) as Hwf.
  destruct (drain_small (iter b) _ fuel Hwf) as (b1 & b2 & outs & H1 & H2 & H3 & H4).
  - unfold iter. by destruct (sampler b (seed b) (dataset b)).
  - rewrite Hlen. unfold iter. by destruct (sampler b (seed b) (dataset b)).
  - exists b1, b2, outs. rewrite Hlen in H3, H4.
    assert (Hbs' : batch_size (iter b) = batch_size b).
    { unfold iter. by destruct (sampler b (seed b) (dataset b)). }
    rewrite Hbs' in H3. repeat split; try done.
    by rewrite H4, Hperm.
Qed.

Lemma small_dataset_refinement_witness :
  ∃ b1 b2 outs,
    one_pass 3 example_iterator = Some (b1, Ok outs)
    ∧ one_pass_fixed 3 example_iterator = Some (b2, Ok outs)
    ∧ length outs = ceil_div 3 2
    ∧ delivered outs = [0; 1; 2]
    ∧ delivered outs ≡ₚ [0; 1; 2].
Proof.
  apply (small_dataset_refinement example_iterator 0).
  - simpl. lia.
  - decide_by_computation.
  - reflexivity.
  - simpl. lia.
Defined.

(** ** The three-instance scenario *)

(** C5: on three instances whose "text" fields have lengths 4, 7 and 2, with
    batch size 2 and the identity sampler, one full pass yields exactly two
    batches: the first covers instances 0 and 1, has "text" padded to length
    7 and text_origin_len = [4, 7]; the second covers instance 2 alone, has
    "text" padded to length 2 and text_origin_len = [2]. *)
Theorem three_instance_scenario (t0 t1 t2 : list Z) (l0 l1 l2 : Z) :
  length t0 = 4 → length t1 = 7 → length t2 = 2 →
  ∃ b' out1 out2,
    one_pass 3 (init [example_instance t0 l0; example_instance t1 l1;
                      example_instance t2 l2] 2 SeqSampler 0 false)
    = Some (b', Ok [out1; out2])
    ∧ visited out1 = [0; 1]
    ∧ batch_x out1 !! "text" = Some (Mat Cpu [t0 ++ [0; 0; 0]%Z; t1])
    ∧ length (t0 ++ [0; 0; 0]%Z) = 7
    ∧ batch_x out1 !! "text_origin_len" = Some (Vec Cpu [4; 7]%Z)
    ∧ visited out2 = [2]
    ∧ batch_x out2 !! "text" = Some (Mat Cpu [t2])
    ∧ batch_x out2 !! "text_origin_len" = Some (Vec Cpu [2]%Z).
Proof.
  intros H0 H1 H2.
  explode t0 H0. explode t1 H1. explode t2 H2.
  eexists _, _, _. split; [vm_compute; reflexivity|].
  by vm_compute.
Qed.

Lemma three_instance_scenario_witness :
  ∃ b' out1 out2,
    one_pass 3 example_iterator = Some (b', Ok [out1; out2])
    ∧ visited out1 = [0; 1]
    ∧ batch_x out1 !! "text"
      = Some (Mat Cpu [[0; 1; 2; 3; 0; 0; 0]; [4; 5; 2; 6; 7; 8; 9]]%Z)
    ∧ length ([0; 1; 2; 3] ++ [0; 0; 0])%Z = 7
    ∧ batch_x out1 !! "text_origin_len" = Some (Vec Cpu [4; 7]%Z)
    ∧ visited out2 = [2]
    ∧ batch_x out2 !! "text" = Some (Mat Cpu [[10; 11]%Z])
    ∧ batch_x out2 !! "text_origin_len" = Some (Vec Cpu [2]%Z).
Proof.
  apply (three_instance_scenario [0; 1; 2; 3]%Z [4; 5; 2; 6; 7; 8; 9]%Z [10; 11]%Z
                                 0%Z 1%Z 0%Z); reflexivity.
Defined.

(** ** Contents of a batch *)

(** Every batch returned by a step of a well-formed iterator is the batch of
    the slice [curidx, endidx). *)
Lemma next_batch (b b' : Batch) (il : list nat) (out : BatchOut) :
  well_formed b il → next b = (b', Ok out) →
  curidx b < endidx_of b il ≤ length (dataset b)
  ∧ batch_spec b (endidx_of b il) out.
Proof.
  intros Hwf Hnext.
  pose proof Hnext as Hinv.
  apply next_Ok_inv in Hinv as (il' & Hil' & Hc & _).
  destruct Hwf as (Hil & Hwf'). rewrite Hil in Hil'. injection Hil' as <-.
  destruct (next_Ok b il (conj Hil Hwf') Hc) as (out' & Hnext' & _ & _ & Hspec).
  rewrite Hnext in Hnext'. injection Hnext' as _ ->.
  destruct Hwf' as (_ & Hlen & Hbs & _).
  pose proof (endidx_of_bounds b il Hbs Hc). split; [lia | done].
Qed.

Lemma on_device_Mat_inv (uc : bool) (dev : Device) (rs rs' : list (list Z)) :
  on_device uc (Mat Cpu rs) = Mat dev rs' → rs' = rs.
Proof. destruct uc; simpl; by intros [= _ ->]. Qed.

Lemma origin_len_not_Mat (uc : bool) d c e name dev rs :
  origin_len uc d c e name ≠ Mat dev rs.
Proof. unfold origin_len. by destruct uc. Qed.

Lemma batch_max_slice (d : DataSet) (c e : nat) (name : string) :
  batch_max d c e name = max_list (field_len name <$> slice c e d).
Proof. unfold batch_max. by rewrite slice_fmap. Qed.

(** Every stacked input field has an entry in the returned input mapping
    (its own tensor, or the length tensor that overwrote it). *)
Lemma next_batch_x_covers (b b' : Batch) (il : list nat) (out : BatchOut)
    (key : string) :
  well_formed b il → next b = (b', Ok out) →
  is_Some (stacked (use_cuda b) false (dataset b) (curidx b) (endidx_of b il) key) →
  is_Some (batch_x out !! key).
Proof.
  intros Hwf Hnext Hs.
  pose proof Hnext as Hinv.
  apply next_Ok_inv in Hinv as (il' & Hil' & Hc & _).
  pose proof Hwf as (Hil & _ & Hlen & Hbs & Huni).
  rewrite Hil in Hil'. injection Hil' as <-.
  destruct (endidx_of_bounds b il Hbs Hc) as [Hlo Hhi].
  assert (Hhi' : endidx_of b il ≤ length (dataset b)) by lia.
  destruct (next_Ok b il Hwf Hc) as (out' & Hnext' & _ & Hmk & _).
  rewrite Hnext in Hnext'. injection Hnext' as _ <-.
  unfold make_batch in Hmk.
  rewrite (padding_length_Ok b (endidx_of b il)) in Hmk by done.
  cbn [mbind Res_bind] in Hmk.
  rewrite (collect_Ok b (endidx_of b il)) in Hmk by done.
  cbn [mbind Res_bind] in Hmk.
  rewrite !(stack_all_Ok b (endidx_of b il)) in Hmk by done.
  cbn [mbind Res_bind] in Hmk.
  apply bind_Ok in Hmk as (bol & _ & [= <-]). cbn [batch_x].
  apply lookup_union_is_Some. right.
  by rewrite (stacked_all_lookup b (endidx_of b il)).
Qed.

(** C3: in every batch and for every field of the dataset, the padding length
    that the step computes for the field is the maximum of the field's
    lengths over the instances of the batch's slice: it bounds each of them,
    one of them attains it, and it depends on nothing but the slice (so it is
    not the maximum over the whole dataset).  The batch is not empty, and
    every instance of it has its tensor for the field padded to exactly that
    length: the stacked tensor returned under the field's name (in [batch_y]
    for a target field, in [batch_x] for an input field) holds the value of
    the instance followed by zeros as one of its rows, and all of its rows
    have exactly the per-batch maximum as their length.  The one entry that
    is not returned is that of an input field whose name is the name of
    another input field's length auxiliary: under that name [batch_x] holds
    the length tensor. *)
Theorem padding_is_per_batch (b b' : Batch) (il : list nat) (out : BatchOut)
    (name : string) :
  well_formed b il → next b = (b', Ok out) →
  (∃ ins, ins ∈ dataset b ∧ is_Some (ins !! name)) →
  ∃ pl,
    padding_length_of (curidx b) (endidx_of b il) (get_length (dataset b)) = Ok pl
    ∧ pl !! name = Some (batch_max (dataset b) (curidx b) (endidx_of b il) name)
    ∧ (∀ ins, ins ∈ slice (curidx b) (endidx_of b il) (dataset b) →
         field_len name ins ≤ batch_max (dataset b) (curidx b) (endidx_of b il) name)
    ∧ (∃ ins, ins ∈ slice (curidx b) (endidx_of b il) (dataset b)
            ∧ field_len name ins
              = batch_max (dataset b) (curidx b) (endidx_of b il) name)
    ∧ (∀ d', slice (curidx b) (endidx_of b il) d'
             = slice (curidx b) (endidx_of b il) (dataset b) →
         batch_max d' (curidx b) (endidx_of b il) name
         = batch_max (dataset b) (curidx b) (endidx_of b il) name)
    ∧ (∀ i ins f, curidx b ≤ i < endidx_of b il →
         dataset b !! i = Some ins → ins !! name = Some f →
         ∃ x y, to_tensor (dataset b) i pl = Ok (x, y)
              ∧ (if is_target f then y else x) !! name
                = Some (LongTensor
                          (pad (batch_max (dataset b) (curidx b) (endidx_of b il) name) f))
              ∧ length (pad (batch_max (dataset b) (curidx b) (endidx_of b il) name) f)
                = batch_max (dataset b) (curidx b) (endidx_of b il) name)
    ∧ (∀ dev rs,
         batch_x out !! name = Some (Mat dev rs)
         ∨ batch_y out !! name = Some (Mat dev rs) →
         length rs ≤ length (visited out)
         ∧ Forall (λ r, length r
                        = batch_max (dataset b) (curidx b) (endidx_of b il) name) rs)
    ∧ curidx b < endidx_of b il
    ∧ visited out = range (curidx b) (endidx_of b il)
    ∧ (∀ i idx, visited out !! i = Some idx →
         ∃ ins f,
           dataset b !! idx = Some ins ∧ ins !! name = Some f
           ∧ ((∃ rs,
                 (if is_target f then batch_y out else batch_x out) !! name
                 = Some (on_device (use_cuda b) (Mat Cpu rs))
                 ∧ (value f ++
                    replicate (batch_max (dataset b) (curidx b) (endidx_of b il) name
                               - length (value f)) 0%Z) ∈ rs
                 ∧ 1 ≤ length rs ≤ length (visited out)
                 ∧ Forall (λ r, length r
                                = batch_max (dataset b) (curidx b) (endidx_of b il) name)
                          rs)
              ∨ (is_target f = false
                 ∧ ∃ name', name = name' +:+ "_origin_len"
                          ∧ batch_x out !! name
                            = Some (origin_len (use_cuda b) (dataset b) (curidx b)
                                               (endidx_of b il) name')))).
Proof.
  intros Hwf Hnext (ins0 & Hin0 & Hname0).
  destruct (next_batch b b' il out Hwf Hnext) as ([Hlo Hhi] & Hvis & Hy & _ & _ & Hx).
  pose proof (next_batch_x_covers b b' il out name Hwf Hnext) as Hcover.
  assert (Huni : uniform (dataset b)) by apply Hwf.
  set (c := curidx b) in *. set (e := endidx_of b il) in *. set (d := dataset b) in *.
  exists (padding_lengths b e). split; [by apply padding_length_Ok|].
  split; [by apply (padding_lengths_lookup b e Huni ins0)|].
  assert (Hrows : ∀ tgt dev rs,
            stacked (use_cuda b) tgt d c e name = Some (Mat dev rs) →
            length rs ≤ length (visited out)
            ∧ Forall (λ r, length r = batch_max d c e name) rs).
  { intros tgt dev rs Hs. unfold stacked in Hs.
    apply fmap_Some in Hs as (rs' & Hrs' & Heq).
    symmetry in Heq. apply on_device_Mat_inv in Heq as ->.
    apply nonempty_Some in Hrs' as [<- _]. split.
    - rewrite Hvis, range_length. unfold rows.
      etrans; [apply omap_length_le|]. by rewrite slice_length.
    - by apply rows_length. }
  split; [|split; [|split; [|split; [|split; [|split; [|split]]]]]].
  - intros ins Hin. rewrite batch_max_slice. apply max_list_elem_of_le.
    apply list_elem_of_fmap. by exists ins.
  - assert (Hmax : batch_max d c e name ∈ field_len name <$> slice c e d).
    { rewrite batch_max_slice. apply max_list_elem_of. intros Hnil.
      apply fmap_nil_inv in Hnil. apply (f_equal length) in Hnil.
      rewrite slice_length in Hnil by done. simpl in Hnil. lia. }
    apply list_elem_of_fmap in Hmax as (ins & Heq & Hin). by exists ins.
  - intros d' Hd'. by rewrite !batch_max_slice, Hd'.
  - intros i ins f Hi Hins Hf.
    exists (tensors b e false ins), (tensors b e true ins).
    split; [by apply to_tensor_Ok|].
    assert (Hin : ins ∈ slice c e d) by (apply slice_elem_of; eauto).
    split; [|by apply pad_length, (field_le_batch_max b e ins)].
    destruct (is_target f) eqn:Htgt; rewrite tensors_lookup; unfold row;
      rewrite Hf; simpl; by rewrite decide_True.
  - intros dev rs [Hbx|Hby].
    + apply Hx in Hbx as [(name' & _ & _ & Heq)|Hs].
      * symmetry in Heq. by apply origin_len_not_Mat in Heq.
      * by apply (Hrows false dev).
    + rewrite Hy in Hby. by apply (Hrows true dev).
  - done.
  - done.
  - intros i idx Hi. rewrite Hvis in Hi. apply lookup_seq in Hi as [-> Hi].
    destruct (lookup_lt_is_Some_2 d (c + i)) as [ins Hins]; [lia|].
    assert (Hin : ins ∈ slice c e d).
    { apply slice_elem_of. exists (c + i). split; [lia | done]. }
    destruct (uniform_is_Some d ins0 ins name) as [f Hf]; [done|done| |done|].
    { by eapply list_elem_of_lookup_2. }
    exists ins, f. split; [done|]. split; [done|].
    assert (Hmem : pad (batch_max d c e name) f ∈ rows (is_target f) d c e name).
    { apply list_elem_of_omap. exists ins. split; [done|].
      unfold row. rewrite Hf. simpl. by rewrite decide_True. }
    assert (Hs : stacked (use_cuda b) (is_target f) d c e name
                 = Some (on_device (use_cuda b)
                           (Mat Cpu (rows (is_target f) d c e name)))).
    { unfold stacked. destruct (rows (is_target f) d c e name) eqn:Hr; [|done].
      by apply elem_of_nil in Hmem. }
    assert (Hgood : 1 ≤ length (rows (is_target f) d c e name) ≤ length (visited out)
                    ∧ Forall (λ r, length r = batch_max d c e name)
                             (rows (is_target f) d c e name)).
    { split; [|by apply rows_length]. split.
      - destruct (rows (is_target f) d c e name); [by apply elem_of_nil in Hmem|].
        simpl. lia.
      - rewrite Hvis, range_length. unfold rows.
        etrans; [apply omap_length_le|]. by rewrite slice_length. }
    destruct (is_target f) eqn:Htgt.
    + left. exists (rows true d c e name). rewrite Hy. by destruct Hgood.
    + destruct Hcover as [t Ht]; [by rewrite Hs|].
      destruct (Hx name t Ht) as [(name' & Hname' & Hs' & ->)|Hst].
      * right. split; [done|]. by exists name'.
      * left. exists (rows false d c e name).
        rewrite Ht, <-Hs, Hst. by destruct Hgood.
Qed.

Lemma example_first_step :
  next (iter example_iterator)
  = (set_curidx (iter example_iterator) 2, Ok example_first_batch).
Proof. vm_compute. reflexivity. Qed.

Lemma padding_is_per_batch_witness :
  ∃ pl, padding_length_of 2 3 (get_length example_data) = Ok pl
      ∧ pl !! "text" = Some 2
      ∧ max_list (field_len "text" <$> example_data) = 7
      ∧ ∃ rs, batch_x example_second_batch !! "text" = Some (Mat Cpu rs)
            ∧ [10; 11]%Z ∈ rs
            ∧ Forall (λ r, length r = 2) rs.
Proof.
  destruct (padding_is_per_batch example_second_state example_after_pass [0; 1; 2]
              example_second_batch "text")
    as (pl & Hpl & Hname & _ & _ & _ & _ & _ & _ & _ & Hret).
  - decide_by_computation.
  - vm_compute. reflexivity.
  - exists (example_instance [0; 1; 2; 3]%Z 0%Z). split; [left | by eexists].
  - exists pl. split; [exact Hpl|]. split; [exact Hname|].
    split; [reflexivity|].
    destruct (Hret 0 2 eq_refl) as (ins & f & Hins & Hf & Hcase).
    assert (Ei : Some ins = Some (example_instance [10; 11]%Z 0%Z))
      by (rewrite <-Hins; reflexivity).
    injection Ei as ->.
    assert (Ef : Some f = Some (text_field [10; 11]%Z))
      by (rewrite <-Hf; vm_compute; reflexivity).
    injection Ef as ->.
    destruct Hcase as [(rs & Hrs & Hmem & _ & Hall)|(_ & name' & Hname' & _)].
    + exists rs. split; [exact Hrs|]. split; [exact Hmem | exact Hall].
    + exfalso. apply (f_equal String.length) in Hname'.
      rewrite (string_app_length name' "_origin_len") in Hname'.
      simpl in Hname'. lia.
Defined.

(** C4: in every batch, every field that is stacked in the returned input
    mapping (equivalently, every input-tagged field of an instance of the
    slice) has a companion entry named by the field name suffixed with
    "_origin_len": an integer tensor with one entry per instance of the
    batch, whose i-th entry is the length of the field's value, before
    padding, in the i-th instance of the slice. *)
Theorem origin_len_attached (b b' : Batch) (il : list nat) (out : BatchOut)
    (name : string) :
  well_formed b il → next b = (b', Ok out) →
  (∃ dev rs, batch_x out !! name = Some (Mat dev rs))
  ∨ (∃ ins f, ins ∈ slice (curidx b) (endidx_of b il) (dataset b)
            ∧ ins !! name = Some f ∧ is_target f = false) →
  ∃ lens,
    batch_x out !! (name +:+ "_origin_len")
    = Some (on_device (use_cuda b) (LongTensor lens))
    ∧ length lens = length (visited out)
    ∧ (∀ i idx, visited out !! i = Some idx →
         ∃ ins f, dataset b !! idx = Some ins ∧ ins !! name = Some f
                ∧ lens !! i = Some (Z.of_nat (length (value f)))).
Proof.
  intros Hwf Hnext Hfield.
  destruct (next_batch b b' il out Hwf Hnext) as ([Hlo Hhi] & Hvis & _ & Haux & _ & Hx).
  assert (Huni : uniform (dataset b)) by apply Hwf.
  set (c := curidx b) in *. set (e := endidx_of b il) in *. set (d := dataset b) in *.
  assert (Hs : is_Some (stacked (use_cuda b) false d c e name)).
  { destruct Hfield as [(dev & rs & Hbx)|(ins & f & Hin & Hf & Htgt)].
    - apply Hx in Hbx as [(name' & _ & _ & Heq)|Hs]; [|by eexists].
      symmetry in Heq. by apply origin_len_not_Mat in Heq.
    - by apply (stacked_is_Some_2 b e false name ins f). }
  exists (Z.of_nat <$> slice c e (field_len name <$> d)).
  split; [by apply Haux|].
  split; [by rewrite length_fmap, Hvis, range_length, (slice_field_len b e)|].
  intros i idx Hi. rewrite Hvis in Hi. apply lookup_seq in Hi as [-> Hi].
  destruct (lookup_lt_is_Some_2 d (c + i)) as [ins Hins]; [lia|].
  apply stacked_is_Some in Hs as (ins' & f' & Hin' & Hf' & _).
  destruct (uniform_is_Some d ins' ins name) as [f Hf]; [done| | |by eexists|].
  { by apply (slice_subseteq b e). }
  { by eapply list_elem_of_lookup_2. }
  exists ins, f. split; [done|]. split; [done|].
  rewrite list_lookup_fmap, slice_lookup, list_lookup_fmap, Hins by done.
  simpl. unfold field_len. by rewrite Hf.
Qed.

Lemma origin_len_attached_witness :
  ∃ lens,
    batch_x example_first_batch !! "text_origin_len" = Some (LongTensor lens)
    ∧ length lens = 2
    ∧ (∀ i idx, [0; 1] !! i = Some idx →
         ∃ ins f, example_data !! idx = Some ins ∧ ins !! "text" = Some f
                ∧ lens !! i = Some (Z.of_nat (length (value f)))).
Proof.
  apply (origin_len_attached (iter example_iterator)
           (set_curidx (iter example_iterator) 2) [0; 1; 2]
           example_first_batch "text").
  - decide_by_computation.
  - vm_compute. reflexivity.
  - left. eexists _, _. vm_compute. reflexivity.
Defined.

(** C6: in every batch, each entry of the returned target mapping is the
    stacked tensor of a target-tagged field of the slice: none is a length
    auxiliary, and no "_origin_len" name occurs in the target mapping unless a
    target field itself bears that name; the length auxiliaries are entries
    of the input mapping, each for an input-tagged field of the slice. *)
Theorem target_mapping_has_no_origin_len (b b' : Batch) (il : list nat)
    (out : BatchOut) :
  well_formed b il → next b = (b', Ok out) →
  (∀ key t, batch_y out !! key = Some t →
     ∃ rs, t = on_device (use_cuda b) (Mat Cpu rs)
         ∧ ∃ ins f, ins ∈ slice (curidx b) (endidx_of b il) (dataset b)
                  ∧ ins !! key = Some f ∧ is_target f = true)
  ∧ (∀ key dev data, batch_y out !! key ≠ Some (Vec dev data))
  ∧ (∀ name,
       (∀ ins f, ins ∈ slice (curidx b) (endidx_of b il) (dataset b) →
                 ins !! (name +:+ "_origin_len") = Some f → is_target f = false) →
       batch_y out !! (name +:+ "_origin_len") = None)
  ∧ (∀ key dev data, batch_x out !! key = Some (Vec dev data) →
       ∃ name ins f, key = name +:+ "_origin_len"
                   ∧ ins ∈ slice (curidx b) (endidx_of b il) (dataset b)
                   ∧ ins !! name = Some f ∧ is_target f = false).
Proof.
  intros Hwf Hnext.
  destruct (next_batch b b' il out Hwf Hnext) as ([Hlo Hhi] & _ & Hy & _ & _ & Hx).
  assert (Huni : uniform (dataset b)) by apply Hwf.
  set (c := curidx b) in *. set (e := endidx_of b il) in *. set (d := dataset b) in *.
  assert (Htarget : ∀ key t, batch_y out !! key = Some t →
            ∃ rs, t = on_device (use_cuda b) (Mat Cpu rs)
                ∧ ∃ ins f, ins ∈ slice c e d ∧ ins !! key = Some f ∧ is_target f = true).
  { intros key t Ht. rewrite Hy in Ht.
    destruct (stacked_is_Some b e true key) as (ins & f & Hin); [by eexists|].
    unfold stacked in Ht. apply fmap_Some in Ht as (rs & _ & ->).
    exists rs. split; [done|]. by exists ins, f. }
  split; [done|]. split; [|split].
  - intros key dev data Ht. apply Htarget in Ht as (rs & Heq & _).
    by destruct (use_cuda b).
  - intros name Hno. destruct (batch_y out !! _) as [t|] eqn:Ht; [|done].
    apply Htarget in Ht as (_ & _ & ins & f & Hin & Hf & Htgt).
    rewrite (Hno ins f Hin Hf) in Htgt. done.
  - intros key dev data Ht. apply Hx in Ht as [(name & -> & Hs & _)|Hs].
    + apply stacked_is_Some in Hs as (ins & f & Hin). by exists name, ins, f.
    + unfold stacked in Hs. apply fmap_Some in Hs as (rs & _ & Heq).
      by destruct (use_cuda b).
Qed.

Lemma target_mapping_has_no_origin_len_witness :
  (∀ key dev data, batch_y example_first_batch !! key ≠ Some (Vec dev data))
  ∧ (∀ key dev data, batch_x example_first_batch !! key = Some (Vec dev data) →
       ∃ name ins f, key = name +:+ "_origin_len"
                   ∧ ins ∈ slice 0 2 example_data
                   ∧ ins !! name = Some f ∧ is_target f = false).
Proof.
  destruct (target_mapping_has_no_origin_len (iter example_iterator)
              (set_curidx (iter example_iterator) 2) [0; 1; 2]
              example_first_batch) as (_ & Hvec & _ & Haux).
  - decide_by_computation.
  - vm_compute. reflexivity.
  - split; [exact Hvec | exact Haux].
Defined.

(** * Further properties of the iterator *)

(** ** The ordering is only measured *)

Lemma make_batch_agree (b1 b2 : Batch) (lens : gmap string (list nat)) (e : nat) :
  dataset b1 = dataset b2 → use_cuda b1 = use_cuda b2 → curidx b1 = curidx b2 →
  make_batch b1 lens e = make_batch b2 lens e.
Proof. intros Hd Hu Hc. unfold make_batch. by rewrite Hd, Hu, Hc. Qed.

Lemma next_agree (b1 b2 : Batch) :
  agree_up_to_ordering b1 b2 →
  (next b1).2 = (next b2).2 ∧ agree_up_to_ordering (next b1).1 (next b2).1.
Proof.
  intros Hagree. pose proof Hagree as (Hd & Hbs & Hu & Hc & Hl & Hil).
  unfold next.
  destruct (idx_list b1) as [il1|] eqn:H1, (idx_list b2) as [il2|] eqn:H2;
    try discriminate Hil; [|done].
  injection Hil as Hlen.
  assert (He : endidx_of b1 il1 = endidx_of b2 il2).
  { unfold endidx_of. by rewrite Hc, Hbs, Hlen. }
  rewrite Hlen, Hc, He, Hl.
  case_decide; [done|].
  destruct (lengths b2) as [lens|] eqn:Hl2; [|done].
  rewrite (make_batch_agree b1 b2) by done.
  destruct (make_batch b2 lens (endidx_of b2 il2)); [|done].
  split; [done|]. unfold agree_up_to_ordering. cbn [fst set_curidx dataset
    batch_size use_cuda curidx lengths idx_list].
  rewrite H1, H2, Hd, Hbs, Hu, Hl, Hl2. simpl. by rewrite Hlen.
Qed.

Lemma drain_agree (fuel : nat) (b1 b2 : Batch) :
  agree_up_to_ordering b1 b2 →
  outcome (drain next fuel b1) = outcome (drain next fuel b2).
Proof.
  revert b1 b2. induction fuel as [|fuel IH]; intros b1 b2 Hagree; [done|].
  destruct (next_agree b1 b2 Hagree) as [Hres Hnext]. simpl.
  destruct (next b1) as [b1' r1], (next b2) as [b2' r2]. simpl in Hres, Hnext.
  subst r2. destruct r1 as [out|e].
  - specialize (IH b1' b2' Hnext). unfold outcome in *.
    destruct (drain next fuel b1') as [[? [?|?]]|],
             (drain next fuel b2') as [[? [?|?]]|]; simplify_eq/=; done.
  - by destruct e.
Qed.

Lemma iter_agree (b1 b2 : Batch) :
  dataset b1 = dataset b2 → batch_size b1 = batch_size b2 →
  use_cuda b1 = use_cuda b2 →
  length (sampler b1 (seed b1) (dataset b1)).1
  = length (sampler b2 (seed b2) (dataset b2)).1 →
  agree_up_to_ordering (iter b1) (iter b2).
Proof.
  intros Hd Hbs Hu Hlen. unfold iter, agree_up_to_ordering.
  destruct (sampler b1 _ _) as [il1 sd1], (sampler b2 _ _) as [il2 sd2].
  simpl in *. by rewrite Hd, Hbs, Hu, Hlen.
Qed.

(** X1: the batches of a pass do not depend on the ordering that the sampler
    returns, only on its length: two iterators over the same dataset, with
    the same batch size and device flag, whose samplers return orderings of
    the same length produce the same batches (or fail alike); lines 57-58
    hand the positions [curidx .. endidx) themselves to the dataset. *)
Theorem pass_ignores_ordering (b1 b2 : Batch) (fuel : nat) :
  dataset b1 = dataset b2 → batch_size b1 = batch_size b2 →
  use_cuda b1 = use_cuda b2 →
  length (sampler b1 (seed b1) (dataset b1)).1
  = length (sampler b2 (seed b2) (dataset b2)).1 →
  outcome (one_pass fuel b1) = outcome (one_pass fuel b2).
Proof.
  intros Hd Hbs Hu Hlen. unfold one_pass.
  by apply drain_agree, iter_agree.
Qed.

Lemma pass_ignores_ordering_witness :
  (sampler reversed_iterator (seed reversed_iterator) example_data).1 = [2; 1; 0]
  ∧ outcome (one_pass 3 reversed_iterator) = outcome (one_pass 3 example_iterator).
Proof.
  split; [reflexivity|].
  apply (pass_ignores_ordering reversed_iterator example_iterator 3); reflexivity.
Defined.

Lemma next_config (b b' : Batch) (r : Res BatchOut) :
  next b = (b', r) →
  dataset b' = dataset b ∧ batch_size b' = batch_size b
  ∧ sampler b' = sampler b ∧ use_cuda b' = use_cuda b.
Proof.
  destruct r as [out|e]; intros Hnext.
  - apply next_Ok_inv in Hnext as (il & _ & _ & -> & _). done.
  - apply next_Raise_inv in Hnext as ->. done.
Qed.

Lemma drain_config (fuel : nat) (b b' : Batch) (r : Res (list BatchOut)) :
  drain next fuel b = Some (b', r) →
  dataset b' = dataset b ∧ batch_size b' = batch_size b
  ∧ sampler b' = sampler b ∧ use_cuda b' = use_cuda b.
Proof.
  revert b r. induction fuel as [|fuel IH]; intros b r Hd; [done|].
  simpl in Hd. destruct (next b) as [b1 [out|e]] eqn:Hnext.
  - apply next_config in Hnext as (H1 & H2 & H3 & H4).
    destruct (drain next fuel b1) as [[b2 [outs|e]]|] eqn:Hd1; [| |done].
    + simplify_eq. apply IH in Hd1 as (? & ? & ? & ?).
      repeat split; congruence.
    + simplify_eq. apply IH in Hd1 as (? & ? & ? & ?).
      repeat split; congruence.
  - apply next_config in Hnext. by destruct e; simplify_eq.
Qed.

Lemma iter_config (b : Batch) :
  dataset (iter b) = dataset b ∧ batch_size (iter b) = batch_size b
  ∧ sampler (iter b) = sampler b ∧ use_cuda (iter b) = use_cuda b.
Proof. unfold iter. by destruct (sampler b (seed b) (dataset b)). Qed.

(** X2: the iterator can be used for one pass after another: in whatever state
    an earlier pass has left it (exhausted or aborted), a new pass gives what
    a pass of the iterator gave before, as long as the sampler returns an
    ordering of the same length. *)
Theorem pass_is_repeatable (b b' : Batch) (fuel0 fuel : nat) (r : Res (list BatchOut)) :
  one_pass fuel0 b = Some (b', r) →
  length (sampler b (seed b') (dataset b)).1
  = length (sampler b (seed b) (dataset b)).1 →
  outcome (one_pass fuel b') = outcome (one_pass fuel b).
Proof.
  intros Hpass Hlen. unfold one_pass in *.
  apply drain_config in Hpass as (Hd & Hbs & Hs & Hu).
  destruct (iter_config b) as (Hd' & Hbs' & Hs' & Hu').
  apply drain_agree, iter_agree; congruence.
Qed.

Lemma pass_is_repeatable_witness :
  outcome (one_pass 3 example_after_pass) = outcome (one_pass 3 example_iterator).
Proof.
  apply (pass_is_repeatable example_iterator example_after_pass 3 3
           (Ok [example_first_batch; example_second_batch])).
  - vm_compute. reflexivity.
  - reflexivity.
Defined.

(** ** What a pass delivers, whatever the inputs *)

Lemma StronglySorted_seq (i n : nat) : StronglySorted lt (seq i n).
Proof.
  revert i. induction n as [|n IH]; intros i; simpl; constructor; [apply IH|].
  apply Forall_forall. intros p Hp. apply elem_of_seq in Hp. lia.
Qed.

Lemma delivered_cons (out : BatchOut) (outs : list BatchOut) :
  delivered (out :: outs) = visited out ++ delivered outs.
Proof. done. Qed.

(** Unfolds one turn of the [for] loop that ended normally. *)
Lemma drain_Ok_inv (fuel : nat) (b b' : Batch) (outs : list BatchOut) :
  drain next (S fuel) b = Some (b', Ok outs) →
  (next b = (b', Raise StopIteration) ∧ outs = [])
  ∨ ∃ b1 out outs', next b = (b1, Ok out)
                  ∧ drain next fuel b1 = Some (b', Ok outs')
                  ∧ outs = out :: outs'.
Proof.
  simpl. destruct (next b) as [b1 [out|e]] eqn:Hnext.
  - destruct (drain next fuel b1) as [[b2 [outs'|e]]|] eqn:Hd; [|done|done].
    intros [= <- <-]. right. by exists b1, out, outs'.
  - destruct e; try done. intros [= <- <-]. by left.
Qed.

Lemma drain_exhausted (fuel : nat) (b b' : Batch) (il : list nat) outs :
  idx_list b = Some il → length il ≤ curidx b →
  drain next fuel b = Some (b', Ok outs) → outs = [].
Proof.
  intros Hil Hc Hd. destruct fuel as [|fuel]; [done|].
  simpl in Hd. rewrite (next_StopIteration b il) in Hd by done.
  by injection Hd as _ <-.
Qed.

(** X3: a pass that ends normally delivers strictly increasing positions,
    all between the cursor it started from and the length of the ordering;
    so no instance is delivered twice in a pass, whatever the dataset, the
    batch size and the ordering. *)
Theorem pass_delivers_increasing (fuel : nat) (b b' : Batch) (il : list nat)
    (outs : list BatchOut) :
  idx_list b = Some il → drain next fuel b = Some (b', Ok outs) →
  StronglySorted lt (delivered outs)
  ∧ Forall (λ p, curidx b ≤ p < length il) (delivered outs)
  ∧ NoDup (delivered outs).
Proof.
  intros Hil Hd.
  assert (Hmain : StronglySorted lt (delivered outs)
                  ∧ Forall (λ p, curidx b ≤ p < length il) (delivered outs)).
  { revert b outs Hil Hd. induction fuel as [|fuel IH]; intros b outs Hil Hd; [done|].
    apply drain_Ok_inv in Hd as [[_ ->]|(b1 & out & outs' & Hnext & Hd & ->)].
    { split; constructor. }
    apply next_Ok_inv in Hnext as (il' & Hil' & Hc & -> & Hvis).
    rewrite Hil in Hil'. injection Hil' as <-.
    destruct (IH (set_curidx b (curidx b + endidx_of b il)) outs' Hil Hd)
      as [Hsorted Hall].
    cbn [curidx set_curidx] in Hall. rewrite Forall_forall in Hall.
    assert (He : endidx_of b il ≤ length il) by (unfold endidx_of; lia).
    rewrite delivered_cons, Hvis. split.
    - apply StronglySorted_app_2; [|apply StronglySorted_seq|done].
      intros p q Hp%elem_of_seq Hq%Hall. lia.
    - apply Forall_app. split; apply Forall_forall.
      + intros p Hp%elem_of_seq. lia.
      + intros p Hp%Hall. lia. }
  destruct Hmain as [Hsorted Hall]. repeat split; [done|done|].
  clear Hall. induction Hsorted as [|p l _ IH Hp]; constructor; [|done].
  intros Hin. rewrite Forall_forall in Hp. specialize (Hp p Hin). lia.
Qed.

Lemma pass_delivers_increasing_witness :
  StronglySorted lt (delivered [example_first_batch; example_second_batch])
  ∧ Forall (λ p, 0 ≤ p < 3) (delivered [example_first_batch; example_second_batch])
  ∧ NoDup (delivered [example_first_batch; example_second_batch]).
Proof.
  apply (pass_delivers_increasing 3 (iter example_iterator) example_after_pass
           [0; 1; 2] [example_first_batch; example_second_batch]).
  - reflexivity.
  - vm_compute. reflexivity.
Defined.

(** X4: no batch holds more than [batch_size] instances; with a positive
    batch size none is empty; and a batch with fewer than [batch_size]
    instances is the last batch of its pass. *)
Theorem short_batch_is_last (fuel : nat) (b b' : Batch) (il : list nat)
    (outs : list BatchOut) :
  idx_list b = Some il → drain next fuel b = Some (b', Ok outs) →
  Forall (λ out, length (visited out) ≤ batch_size b) outs
  ∧ (1 ≤ batch_size b → Forall (λ out, 1 ≤ length (visited out)) outs)
  ∧ (∀ i out, outs !! i = Some out → length (visited out) < batch_size b →
       S i = length outs).
Proof.
  revert b outs. induction fuel as [|fuel IH]; intros b outs Hil Hd; [done|].
  apply drain_Ok_inv in Hd as [[_ ->]|(b1 & out & outs' & Hnext & Hd & ->)].
  { split; [apply Forall_nil_2|]. split; [intros _; apply Forall_nil_2|].
    intros i out Hi. by destruct i. }
  apply next_Ok_inv in Hnext as (il' & Hil' & Hc & -> & Hvis).
  rewrite Hil in Hil'. injection Hil' as <-.
  destruct (IH (set_curidx b (curidx b + endidx_of b il)) outs' Hil Hd)
    as (Hle & Hpos & Hlast).
  cbn [batch_size set_curidx] in Hle, Hpos, Hlast.
  assert (Hcount : length (visited out) = endidx_of b il - curidx b)
    by (by rewrite Hvis, range_length).
  split; [|split].
  - constructor; [|done]. rewrite Hcount. unfold endidx_of. lia.
  - intros Hbs. constructor; [|by apply Hpos].
    rewrite Hcount. unfold endidx_of. lia.
  - intros [|i] out' Hi Hshort.
    + injection Hi as <-. rewrite Hcount in Hshort.
      assert (outs' = []) as ->; [|done].
      apply (drain_exhausted fuel (set_curidx b (curidx b + endidx_of b il)) b' il);
        [done| |done].
      unfold endidx_of in *. simpl. lia.
    + simpl. f_equal. by apply (Hlast i out').
Qed.

Lemma short_batch_is_last_witness :
  Forall (λ out, length (visited out) ≤ 2) [example_first_batch; example_second_batch]
  ∧ (1 ≤ 2 → Forall (λ out, 1 ≤ length (visited out))
                    [example_first_batch; example_second_batch])
  ∧ (∀ i out, [example_first_batch; example_second_batch] !! i = Some out →
       length (visited out) < 2 → S i = 2).
Proof.
  apply (short_batch_is_last 3 (iter example_iterator) example_after_pass
           [0; 1; 2] [example_first_batch; example_second_batch]).
  - reflexivity.
  - vm_compute. reflexivity.
Defined.

(** ** The cursor doubles *)

Lemma pow2_pos (k : nat) : 1 ≤ 2 ^ k.
Proof. induction k as [|k IH]; simpl; lia. Qed.

Lemma geometric_end (k B : nat) : (2 ^ k - 1) * B + B = 2 ^ k * B.
Proof. pose proof (pow2_pos k). nia. Qed.

Lemma geometric_succ (k B : nat) :
  (2 ^ S k - 1) * B = (2 ^ k - 1) * B + 2 ^ k * B.
Proof. pose proof (pow2_pos k). rewrite Nat.pow_succ_r'. nia. Qed.

Lemma geometric_mono (j m B : nat) : m ≤ j → (2 ^ m - 1) * B ≤ (2 ^ j - 1) * B.
Proof.
  intros Hmj. apply Nat.mul_le_mono_r, Nat.sub_le_mono_r.
  apply Nat.pow_le_mono_r; lia.
Qed.

(** From a cursor at [(2^k - 1) * batch_size], the batches of the rest of the
    pass start at the cursors [(2^(k+j) - 1) * batch_size]. *)
Lemma drain_geometric (fuel : nat) (b b' : Batch) (il : list nat)
    (outs : list BatchOut) (k : nat) :
  idx_list b = Some il → curidx b = (2 ^ k - 1) * batch_size b →
  drain next fuel b = Some (b', Ok outs) →
  (∀ j out, outs !! j = Some out →
     visited out = range ((2 ^ (k + j) - 1) * batch_size b)
                         (Nat.min (2 ^ (k + j) * batch_size b) (length il)))
  ∧ (∀ j, j < length outs → (2 ^ (k + j) - 1) * batch_size b < length il)
  ∧ length il ≤ (2 ^ (k + length outs) - 1) * batch_size b.
Proof.
  revert b outs k. induction fuel as [|fuel IH]; intros b outs k Hil Hk Hd; [done|].
  apply drain_Ok_inv in Hd as [[Hstop ->]|(b1 & out & outs' & Hnext & Hd & ->)].
  { apply (next_StopIteration_inv b b' il Hil) in Hstop.
    split; [by intros [|j] out|]. split; [simpl; lia|].
    simpl. rewrite Nat.add_0_r. lia. }
  apply next_Ok_inv in Hnext as (il' & Hil' & Hc & -> & Hvis).
  rewrite Hil in Hil'. injection Hil' as <-.
  pose proof (geometric_end k (batch_size b)) as Hend.
  assert (He : endidx_of b il = Nat.min (2 ^ k * batch_size b) (length il)).
  { unfold endidx_of. by rewrite Hk, Hend. }
  destruct (decide (2 ^ k * batch_size b ≤ length il)) as [Hfull|Hshort].
  - destruct (IH (set_curidx b (curidx b + endidx_of b il)) outs' (S k))
      as (Hvis' & Hlt' & Hge'); [done| |done|].
    { cbn [curidx batch_size set_curidx]. rewrite geometric_succ, He, Hk. lia. }
    cbn [batch_size set_curidx] in Hvis', Hlt', Hge'.
    split; [|split].
    + intros [|j] out' Hj.
      * injection Hj as <-. by rewrite Nat.add_0_r, Hvis, He, Hk.
      * rewrite Nat.add_succ_r. by apply Hvis'.
    + intros [|j] Hj.
      * rewrite Nat.add_0_r. lia.
      * rewrite Nat.add_succ_r. apply Hlt'. simpl in Hj. lia.
    + cbn [length]. rewrite Nat.add_succ_r. exact Hge'.
  - assert (outs' = []) as ->.
    { apply (drain_exhausted fuel (set_curidx b (curidx b + endidx_of b il)) b' il);
        [done| |done].
      rewrite He. simpl. lia. }
    split; [|split].
    + intros [|j] out' Hj; [|done].
      injection Hj as <-. by rewrite Nat.add_0_r, Hvis, He, Hk.
    + intros [|j] Hj; [|simpl in Hj; lia]. rewrite Nat.add_0_r. lia.
    + cbn [length]. rewrite Nat.add_succ_r, Nat.add_0_r, geometric_succ. lia.
Qed.

(** X5: because the step adds [endidx] to the cursor, the cursor doubles:
    on well-formed inputs the j-th batch of a pass (from 0) covers the
    positions from [(2^j - 1) * batch_size] up to [2^j * batch_size] (or the
    end of the dataset), and the pass has exactly the batches j for which
    [(2^j - 1) * batch_size] is less than the number of instances: about
    log2 (N / batch_size + 1) batches instead of N / batch_size. *)
Theorem pass_batches_geometric (b : Batch) (fuel : nat) :
  1 ≤ batch_size b → uniform (dataset b) →
  length (sampler b (seed b) (dataset b)).1 = length (dataset b) →
  length (dataset b) < fuel →
  ∃ b' outs,
    one_pass fuel b = Some (b', Ok outs)
    ∧ (∀ j out, outs !! j = Some out →
         visited out = range ((2 ^ j - 1) * batch_size b)
                             (Nat.min (2 ^ j * batch_size b) (length (dataset b))))
    ∧ (∀ j, j < length outs ↔ (2 ^ j - 1) * batch_size b < length (dataset b)).
Proof.
  intros Hbs Huni Hlen Hfuel.
  pose proof (iter_well_formed b Hbs Huni Hlen) as Hwf.
  destruct (iter_config b) as (_ & Hbs' & _).
  assert (Hc0 : curidx (iter b) = 0).
  { unfold iter. by destruct (sampler b (seed b) (dataset b)). }
  set (il := (sampler b (seed b) (dataset b)).1) in *.
  destruct (drain_well_formed (iter b) il fuel Hwf) as (b' & outs & Hd & _); [lia|].
  destruct (drain_geometric fuel (iter b) b' il outs 0) as (Hvis & Hlt & Hge);
    [apply Hwf | by rewrite Hc0 | done |].
  rewrite Hbs', Hlen in *. simpl in Hvis, Hlt, Hge.
  exists b', outs. split; [done|]. split; [done|].
  intros j. split; [apply Hlt|]. intros Hj.
  destruct (decide (j < length outs)) as [|Hnot]; [done|].
  pose proof (geometric_mono j (length outs) (batch_size b)). lia.
Qed.

Lemma pass_batches_geometric_witness :
  ∃ b' outs,
    one_pass 6 five_instances_iterator = Some (b', Ok outs)
    ∧ (∀ j out, outs !! j = Some out →
         visited out = range ((2 ^ j - 1) * 2) (Nat.min (2 ^ j * 2) 5))
    ∧ (∀ j, j < length outs ↔ (2 ^ j - 1) * 2 < 5).
Proof.
  apply (pass_batches_geometric five_instances_iterator 6).
  - simpl. lia.
  - decide_by_computation.
  - reflexivity.
  - simpl. lia.
Defined.

(** ** Exceptions of a step *)

Lemma raises_only_Ok {A} (P : Exc → Prop) (a : A) : raises_only P (Ok a).
Proof. by intros e. Qed.

Lemma raises_only_bind {A B} (P : Exc → Prop) (r : Res A) (k : A → Res B) :
  raises_only P r → (∀ a, raises_only P (k a)) → raises_only P (r ≫= k).
Proof.
  destruct r as [a|e]; simpl; [by auto|]. intros Hr _ e' [= <-]. by apply Hr.
Qed.

Lemma raises_only_for_each {A S} (P : Exc → Prop) (body : S → A → Res S) s l :
  (∀ s a, raises_only P (body s a)) → raises_only P (for_each body s l).
Proof.
  intros Hbody. revert s. induction l as [|a l IH]; intros s; simpl.
  - apply raises_only_Ok.
  - apply raises_only_bind; auto.
Qed.

Lemma raises_only_dict_for {A B} (P : Exc → Prop) key (f : string → A → Res B) d :
  (∀ k a, raises_only P (f k a)) → raises_only P (dict_for key f d).
Proof.
  intros Hf. apply raises_only_for_each. intros acc [k a].
  apply raises_only_bind; [apply Hf | intros; apply raises_only_Ok].
Qed.

Lemma raises_only_Raise {A} (P : Exc → Prop) (e : Exc) :
  P e → raises_only P (@Raise A e).
Proof. by intros He e' [= <-]. Qed.

Lemma batch_error_RuntimeError : batch_error RuntimeError.
Proof. unfold batch_error. auto. Qed.

Lemma raises_only_stack (ts : list Tensor) : raises_only batch_error (stack ts).
Proof.
  destruct ts as [|[dev data|] ts];
    [apply raises_only_Raise, batch_error_RuntimeError|
    |apply raises_only_Raise, batch_error_RuntimeError].
  unfold stack. apply raises_only_bind; [|intros; apply raises_only_Ok].
  generalize (length data) as n. generalize (Vec dev data :: ts) as l.
  induction l as [|t l IH]; intros n; simpl; [apply raises_only_Ok|].
  apply raises_only_bind.
  - destruct t; simpl; [case_decide|];
      first [apply raises_only_Ok | apply raises_only_Raise, batch_error_RuntimeError].
  - intros r. apply raises_only_bind; [apply IH | intros; apply raises_only_Ok].
Qed.

Lemma raises_only_to_tensor (d : DataSet) (i : nat) (pl : gmap string nat) :
  raises_only batch_error (to_tensor d i pl).
Proof.
  unfold to_tensor. destruct (d !! i) as [ins|].
  2:{ intros e [= <-]. unfold batch_error. auto. }
  assert (Hins : ∀ tgt, raises_only batch_error (Instance_to_tensor tgt ins pl)).
  { intros tgt. apply raises_only_dict_for. intros name f.
    apply raises_only_bind.
    - unfold getitem. destruct (pl !! name); [apply raises_only_Ok|].
      intros e [= <-]. unfold batch_error. auto.
    - intros n. unfold Field_to_tensor. case_decide; [apply raises_only_Ok|].
      intros e [= <-]. unfold batch_error. auto. }
  apply raises_only_bind; [apply Hins|]. intros x.
  apply raises_only_bind; [apply Hins|]. intros y. apply raises_only_Ok.
Qed.

Lemma raises_only_make_batch (b : Batch) (lens : gmap string (list nat)) (e : nat) :
  raises_only batch_error (make_batch b lens e).
Proof.
  unfold make_batch. apply raises_only_bind.
  { apply raises_only_dict_for. intros _ fl. unfold py_max.
    destruct (slice _ _ fl); [|apply raises_only_Ok].
    intros e' [= <-]. unfold batch_error. auto. }
  intros pl. apply raises_only_bind.
  { apply raises_only_for_each. intros [bx by_] idx.
    apply raises_only_bind; [apply raises_only_to_tensor|].
    intros [x y]. apply raises_only_Ok. }
  intros [xs ys].
  assert (Hst : ∀ uc m, raises_only batch_error (stack_all uc m)).
  { intros uc m. apply raises_only_dict_for. intros _ tl.
    apply raises_only_bind; [apply raises_only_stack | intros; apply raises_only_Ok]. }
  apply raises_only_bind; [apply Hst|]. intros sx.
  apply raises_only_bind; [apply Hst|]. intros sy.
  apply raises_only_bind; [|intros; apply raises_only_Ok].
  apply raises_only_dict_for. intros name _.
  apply raises_only_bind; [|intros; apply raises_only_Ok].
  unfold getitem. destruct (_ !! name); [apply raises_only_Ok|].
  intros e' [= <-]. unfold batch_error. auto.
Qed.

(** X6: a step raises [TypeError] exactly when the iterator has not been
    entered with [__iter__] ([idx_list] is still [None], as [__init__] leaves
    it); inside a pass the exceptions other than [StopIteration] are those of
    building the batch; and a step that raises leaves the iterator as it
    was: the cursor only moves when a batch is returned. *)
Theorem next_exceptions (b : Batch) :
  ((next b).2 = Raise TypeError ↔ idx_list b = None)
  ∧ (∀ d bs s sd uc, next (init d bs s sd uc) = (init d bs s sd uc, Raise TypeError))
  ∧ (∀ b' e, next b = (b', Raise e) →
       b' = b
       ∧ (is_Some (idx_list b) → is_Some (lengths b) →
          e = StopIteration ∨ batch_error e)).
Proof.
  split; [|split].
  - unfold next. destruct (idx_list b) as [il|]; [|done].
    split; [|done]. case_decide; [done|].
    destruct (lengths b) as [lens|]; [|done].
    destruct (make_batch b lens (endidx_of b il)) as [out|e] eqn:Hmk; [done|].
    simpl. intros [= ->].
    destruct (raises_only_make_batch b lens _ _ Hmk) as [?|[?|[?|?]]]; done.
  - done.
  - intros b' e Hnext. split; [by apply next_Raise_inv in Hnext|].
    intros [il Hil] [lens Hlens]. unfold next in Hnext.
    rewrite Hil, Hlens in Hnext. case_decide.
    + injection Hnext as _ <-. by left.
    + destruct (make_batch b lens (endidx_of b il)) as [out|e'] eqn:Hmk; [done|].
      injection Hnext as _ <-. right.
      by apply (raises_only_make_batch b lens (endidx_of b il)).
Qed.

(** A loop over a dict raises [e] when one of its steps does and the others
    return or raise [e] too. *)
Lemma dict_for_Raise {A B} key (f : string → A → Res B) (d : gmap string A) e :
  (∀ k a, d !! k = Some a → f k a = Raise e ∨ ∃ b, f k a = Ok b) →
  (∃ k a, d !! k = Some a ∧ f k a = Raise e) →
  dict_for key f d = Raise e.
Proof.
  unfold dict_for. intros Hall (k & a & Hk & Hraise).
  apply elem_of_map_to_list in Hk.
  assert (Hall' : ∀ k a, (k, a) ∈ map_to_list d → f k a = Raise e ∨ ∃ b, f k a = Ok b).
  { intros k' a' Hin. apply Hall. by apply elem_of_map_to_list. }
  clear Hall. revert Hk Hall'. generalize (∅ : gmap string B) as acc.
  induction (map_to_list d) as [|[k' a'] l IH]; intros acc Hin Hall.
  - by apply elem_of_nil in Hin.
  - simpl. destruct (Hall k' a') as [Hf|[b' Hf]]; [left|by rewrite Hf|].
    apply elem_of_cons in Hin as [[= -> ->]|Hin]; [congruence|].
    rewrite Hf. simpl. apply IH; [done|].
    intros k'' a'' Hin'. apply Hall. by right.
Qed.

(** X7: a step whose slice of the lengths of some field is empty raises
    [ValueError] (the [max] of line 51) and leaves the iterator unchanged;
    this happens with batch size 0 as soon as the dataset has a field, and
    when the cursor is inside the ordering but at or beyond the end of a
    field's length sequence (an ordering longer than the dataset). *)
Theorem empty_slice_raises_ValueError (b : Batch) (il : list nat)
    (lens : gmap string (list nat)) (name : string) (fl : list nat) :
  idx_list b = Some il → lengths b = Some lens → curidx b < length il →
  lens !! name = Some fl →
  batch_size b = 0 ∨ length fl ≤ curidx b →
  next b = (b, Raise ValueError).
Proof.
  intros Hil Hlens Hc Hname Hempty.
  assert (Hslice : slice (curidx b) (endidx_of b il) fl = []).
  { unfold slice, endidx_of. destruct Hempty as [-> | Hfl].
    - by replace (_ - _) with 0 by lia.
    - by rewrite drop_ge, take_nil by done. }
  unfold next. rewrite Hil, Hlens, decide_False by lia.
  unfold make_batch, padding_length_of.
  rewrite (dict_for_Raise _ _ _ ValueError); [done| |].
  - intros k a _. unfold py_max. destruct (slice _ _ a); eauto.
  - exists name, fl. split; [done|]. by rewrite Hslice.
Qed.

Lemma empty_slice_raises_ValueError_witness :
  next (iter zero_size_iterator) = (iter zero_size_iterator, Raise ValueError).
Proof.
  apply (empty_slice_raises_ValueError (iter zero_size_iterator) [0; 1; 2]
           (get_length example_data) "text" [4; 7; 2]).
  - reflexivity.
  - reflexivity.
  - simpl. lia.
  - vm_compute. reflexivity.
  - left. reflexivity.
Defined.

Lemma set_curidx_same (b : Batch) : set_curidx b (curidx b) = b.
Proof. by destruct b. Qed.

(** X8: with batch size 0 and no field to take a maximum of, a step at cursor
    0 returns an empty batch and leaves the cursor at 0: the pass never
    ends, however long the loop runs. *)
Theorem zero_batch_size_never_ends (b : Batch) (il : list nat) :
  idx_list b = Some il → lengths b = Some ∅ → batch_size b = 0 →
  curidx b = 0 → il ≠ [] →
  next b = (b, Ok (mkOut [] ∅ ∅)) ∧ ∀ fuel, drain next fuel b = None.
Proof.
  intros Hil Hlens Hbs Hc Hne.
  assert (Hnext : next b = (b, Ok (mkOut [] ∅ ∅))).
  { unfold next. rewrite Hil, Hlens.
    assert (He : endidx_of b il = 0) by (unfold endidx_of; lia).
    rewrite decide_False by (destruct il; [done | simpl; lia]).
    rewrite He.
    assert (Hmk : make_batch b ∅ 0 = Ok (mkOut [] ∅ ∅)).
    { unfold make_batch, padding_length_of, collect, stack_all,
        origin_length_entries, origin_lengths_of, dict_for.
      rewrite Hc. repeat (rewrite map_to_list_empty; simpl).
      by rewrite (left_id_L ∅ (∪)). }
    rewrite Hmk. f_equal.
    transitivity (set_curidx b (curidx b)); [by rewrite Hc | apply set_curidx_same]. }
  split; [done|]. intros fuel. induction fuel as [|fuel IH]; [done|].
  simpl. by rewrite Hnext, IH.
Qed.

Lemma zero_batch_size_never_ends_witness :
  next (iter fieldless_iterator) = (iter fieldless_iterator, Ok (mkOut [] ∅ ∅))
  ∧ ∀ fuel, one_pass fuel fieldless_iterator = None.
Proof.
  apply (zero_batch_size_never_ends (iter fieldless_iterator) [0; 1]).
  - reflexivity.
  - vm_compute. reflexivity.
  - reflexivity.
  - reflexivity.
  - done.
Defined.

(** ** Device placement *)

(** Every entry of the dict filled by a loop was written by one of its
    steps. *)
Lemma dict_for_Ok_lookup {A B} key (f : string → A → Res B) (d : gmap string A)
    (m : gmap string B) (j : string) (v : B) :
  dict_for key f d = Ok m → m !! j = Some v →
  ∃ k a, d !! k = Some a ∧ j = key k ∧ f k a = Ok v.
Proof.
  unfold dict_for. intros Hm Hj.
  assert (Hgen : ∀ l acc,
            for_each (λ acc '(k, a), b ← f k a; Ok (<[key k := b]> acc)) acc l = Ok m →
            acc !! j = Some v ∨ ∃ k a, (k, a) ∈ l ∧ j = key k ∧ f k a = Ok v).
  { induction l as [|[k a] l IH]; intros acc Hl; simpl in Hl.
    - injection Hl as ->. by left.
    - apply bind_Ok in Hl as (acc' & Hstep & Hl).
      apply bind_Ok in Hstep as (v' & Hf & [= <-]).
      destruct (IH _ Hl) as [Hacc|(k' & a' & Hin & Hkey & Hf')].
      + destruct (decide (key k = j)) as [<-|Hne].
        * rewrite lookup_insert_eq in Hacc. injection Hacc as ->.
          right. exists k, a. split; [left | done].
        * rewrite lookup_insert_ne in Hacc by done. by left.
      + right. exists k', a'. split; [by right | done]. }
  destruct (Hgen _ _ Hm) as [Hempty|(k & a & Hin & Hkey & Hf)]; [done|].
  exists k, a. split; [by apply elem_of_map_to_list | done].
Qed.

Lemma next_Ok_make_batch (b b' : Batch) (out : BatchOut) :
  next b = (b', Ok out) →
  ∃ il lens, idx_list b = Some il ∧ lengths b = Some lens
           ∧ make_batch b lens (endidx_of b il) = Ok out.
Proof.
  unfold next. destruct (idx_list b) as [il|]; [|done].
  case_decide; [done|]. destruct (lengths b) as [lens|]; [|done].
  destruct (make_batch b lens (endidx_of b il)) as [out'|e] eqn:Hmk; [|done].
  intros [= _ <-]. by exists il, lens.
Qed.

Lemma device_cuda (t : Tensor) : device (cuda t) = Cuda.
Proof. by destruct t. Qed.

(** X9: with the device flag set, every tensor of both returned mappings,
    stacked field or length auxiliary, is a cuda tensor, for every batch the
    iterator returns; with the flag unset, on well-formed inputs, all of them
    stay on the host. *)
Theorem tensors_follow_use_cuda (b b' : Batch) (out : BatchOut) :
  next b = (b', Ok out) →
  (use_cuda b = true →
     ∀ key t, batch_x out !! key = Some t ∨ batch_y out !! key = Some t →
              device t = Cuda)
  ∧ (use_cuda b = false → ∀ il, well_formed b il →
     ∀ key t, batch_x out !! key = Some t ∨ batch_y out !! key = Some t →
              device t = Cpu).
Proof.
  intros Hnext. split.
  - intros Huc key t Ht.
    apply next_Ok_make_batch in Hnext as (il & lens & _ & _ & Hmk).
    unfold make_batch in Hmk. rewrite Huc in Hmk.
    apply bind_Ok in Hmk as (pl & _ & Hmk).
    apply bind_Ok in Hmk as ([xs ys] & _ & Hmk).
    apply bind_Ok in Hmk as (sx & Hsx & Hmk).
    apply bind_Ok in Hmk as (sy & Hsy & Hmk).
    apply bind_Ok in Hmk as (bol & Hbol & [= <-]).
    cbn [batch_x batch_y] in Ht.
    assert (Hstack : ∀ m sm, stack_all true m = Ok sm → sm !! key = Some t →
              device t = Cuda).
    { intros m sm Hsm Hkey.
      destruct (dict_for_Ok_lookup _ _ _ _ _ _ Hsm Hkey) as (k & tl & _ & _ & Hf).
      apply bind_Ok in Hf as (t' & _ & [= <-]). apply device_cuda. }
    destruct Ht as [Ht|Ht]; [|by apply (Hstack ys sy)].
    apply lookup_union_Some_raw in Ht as [Ht|[_ Ht]]; [|by apply (Hstack xs sx)].
    destruct (dict_for_Ok_lookup _ _ _ _ _ _ Hbol Ht) as (k & t' & _ & _ & Hf).
    apply bind_Ok in Hf as (ol & _ & [= <-]). done.
  - intros Huc il Hwf key t Ht.
    destruct (next_batch b b' il out Hwf Hnext) as (_ & _ & Hy & _ & _ & Hx).
    rewrite Huc in Hy, Hx.
    assert (Hstacked : ∀ tgt c e, stacked false tgt (dataset b) c e key = Some t →
              device t = Cpu).
    { intros tgt c e Hs. unfold stacked in Hs.
      by apply fmap_Some in Hs as (rs & _ & ->). }
    destruct Ht as [Ht|Ht].
    + apply Hx in Ht as [(name & _ & _ & ->)|Hs]; [done | by eapply Hstacked].
    + rewrite Hy in Ht. by eapply Hstacked.
Qed.

Lemma tensors_follow_use_cuda_witness :
  (∀ key t, batch_x cuda_first_batch !! key = Some t
            ∨ batch_y cuda_first_batch !! key = Some t → device t = Cuda)
  ∧ (∀ key t, batch_x example_first_batch !! key = Some t
              ∨ batch_y example_first_batch !! key = Some t → device t = Cpu).
Proof.
  split.
  - apply (tensors_follow_use_cuda (iter cuda_iterator)
             (set_curidx (iter cuda_iterator) 2) cuda_first_batch).
    + vm_compute. reflexivity.
    + reflexivity.
  - apply (tensors_follow_use_cuda (iter example_iterator)
             (set_curidx (iter example_iterator) 2) example_first_batch)
      with (il := [0; 1; 2]).
    + vm_compute. reflexivity.
    + reflexivity.
    + decide_by_computation.
Defined.

(** ** The vocabulary of the running example *)

Lemma add_token_stable (vocab : gmap string nat) (tokens tok : string) (i : nat) :
  vocab !! tok = Some i → add_token vocab tokens !! tok = Some i.
Proof.
  intros Htok. unfold add_token. destruct (vocab !! tokens) eqn:Hnew; [done|].
  rewrite lookup_insert_ne; [done|]. intros ->. congruence.
Qed.

Lemma add_token_is_Some (vocab : gmap string nat) (tokens tok : string) :
  is_Some (add_token vocab tokens !! tok) ↔ tok = tokens ∨ is_Some (vocab !! tok).
Proof.
  unfold add_token. destruct (vocab !! tokens) eqn:Hnew.
  - split; [by right|]. intros [->|?]; [by eexists | done].
  - destruct (decide (tokens = tok)) as [->|Hne].
    + rewrite lookup_insert_eq. split; [by left | by eexists].
    + rewrite lookup_insert_ne by done. split; [by right|].
      by intros [->|?].
Qed.

Lemma add_token_dense (vocab : gmap string nat) (tokens : string) :
  dense vocab → dense (add_token vocab tokens).
Proof.
  intros (Hlt & Hinj & Hsurj). unfold add_token.
  destruct (vocab !! tokens) eqn:Hnew; [done|].
  unfold dense. rewrite map_size_insert_None by done.
  split; [|split].
  - intros tok i. destruct (decide (tokens = tok)) as [->|Hne].
    + rewrite lookup_insert_eq. intros [= <-]. lia.
    + rewrite lookup_insert_ne by done. intros Hi%Hlt. lia.
  - intros tok1 tok2 i.
    destruct (decide (tokens = tok1)) as [Heq1|Hne1],
             (decide (tokens = tok2)) as [Heq2|Hne2]; subst;
      rewrite ?lookup_insert_eq, ?lookup_insert_ne by done.
    + done.
    + intros [= <-] Hi%Hlt. lia.
    + intros Hi%Hlt [= <-]. lia.
    + apply Hinj.
  - intros i Hi. destruct (decide (i = size vocab)) as [->|Hne].
    + exists tokens. by rewrite lookup_insert_eq.
    + destruct (Hsurj i) as [tok Htok]; [lia|]. exists tok.
      rewrite lookup_insert_ne; [done|]. intros ->. congruence.
Qed.

Lemma build_vocab_flat (texts : list (list string)) (vocab : gmap string nat) :
  foldl (λ vocab text, foldl add_token vocab text) vocab texts
  = foldl add_token vocab (concat texts).
Proof.
  revert vocab. induction texts as [|text texts IH]; intros vocab; simpl; [done|].
  by rewrite IH, foldl_app.
Qed.

Lemma add_tokens_spec (toks : list string) (vocab : gmap string nat) :
  dense vocab →
  dense (foldl add_token vocab toks)
  ∧ (∀ tok, is_Some (foldl add_token vocab toks !! tok)
            ↔ tok ∈ toks ∨ is_Some (vocab !! tok))
  ∧ (∀ tok i, vocab !! tok = Some i → foldl add_token vocab toks !! tok = Some i).
Proof.
  revert vocab. induction toks as [|t toks IH]; intros vocab Hdense; simpl.
  - split; [done|]. split; [|done]. intros tok. split; [by right|].
    by intros [?%elem_of_nil|?].
  - destruct (IH (add_token vocab t)) as (Hd & Hdom & Hstable);
      [by apply add_token_dense|].
    split; [done|]. split.
    + intros tok. rewrite Hdom, add_token_is_Some, elem_of_cons. tauto.
    + intros tok i Hi. by apply Hstable, add_token_stable.
Qed.

Lemma dense_empty : dense ∅.
Proof.
  unfold dense. rewrite map_size_empty. split; [|split].
  - by intros tok i ?%lookup_empty_Some.
  - by intros tok1 tok2 i ?%lookup_empty_Some.
  - intros i Hi. lia.
Qed.

Lemma elem_of_concat_texts (tok : string) (texts : list (list string)) :
  tok ∈ concat texts ↔ ∃ text, text ∈ texts ∧ tok ∈ text.
Proof.
  induction texts as [|text texts IH]; simpl.
  - split; [by intros ?%elem_of_nil | by intros (? & ?%elem_of_nil & _)].
  - rewrite elem_of_app, IH. split.
    + intros [Hin|(text' & Hin & Htok)].
      * exists text. split; [left | done].
      * exists text'. split; [by right | done].
    + intros (text' & Hin & Htok). apply elem_of_cons in Hin as [->|Hin].
      * by left.
      * right. by exists text'.
Qed.

(** X10: the vocabulary built by the running example holds exactly the tokens
    of the texts; its ids are the numbers 0 .. len(vocab) - 1, each given to
    one token; and building it from more texts never changes the id of a
    token of the earlier ones. *)
Theorem build_vocab_ids (texts : list (list string)) :
  (∀ tok, is_Some (build_vocab texts !! tok) ↔ ∃ text, text ∈ texts ∧ tok ∈ text)
  ∧ (∀ tok i, build_vocab texts !! tok = Some i → i < size (build_vocab texts))
  ∧ (∀ tok1 tok2 i, build_vocab texts !! tok1 = Some i →
                    build_vocab texts !! tok2 = Some i → tok1 = tok2)
  ∧ (∀ i, i < size (build_vocab texts) → ∃ tok, build_vocab texts !! tok = Some i)
  ∧ (∀ more tok i, build_vocab texts !! tok = Some i →
                   build_vocab (texts ++ more) !! tok = Some i).
Proof.
  unfold build_vocab. rewrite build_vocab_flat.
  destruct (add_tokens_spec (concat texts) ∅ dense_empty)
    as ((Hlt & Hinj & Hsurj) & Hdom & _).
  split; [|split; [|split; [|split]]]; try done.
  - intros tok. rewrite Hdom, elem_of_concat_texts. split; [|by left].
    intros [?|[? ?%lookup_empty_Some]]; done.
  - intros more tok i Hi. rewrite build_vocab_flat, concat_app, foldl_app.
    by apply add_tokens_spec.
Qed.

Lemma demo_vocab :
  build_vocab demo_texts
  = list_to_map [("i", 0); ("am", 1); ("a", 2); ("cat", 3); ("this", 4);
                 ("is", 5); ("test", 6); ("of", 7); ("new", 8); ("batch", 9);
                 ("haha", 10)].
Proof. vm_compute. reflexivity. Qed.

(** ** Rows and instances *)

Lemma tagged_Some (tgt : bool) (name : string) (ins : Instance) :
  is_target <$> ins !! name = Some tgt → ∃ f, ins !! name = Some f ∧ is_target f = tgt.
Proof. destruct (ins !! name) as [f|]; [|done]. intros [= <-]. by exists f. Qed.

Lemma rows_total (tgt : bool) (d : DataSet) (c e : nat) (name : string) :
  Forall (λ ins, is_target <$> ins !! name = Some tgt) (slice c e d) →
  rows tgt d c e name
  = (λ ins, from_option (pad (batch_max d c e name)) [] (ins !! name)) <$> slice c e d.
Proof.
  rewrite Forall_forall. intros Hall. unfold rows. apply omap_total. intros ins Hin.
  destruct (tagged_Some tgt name ins (Hall ins Hin)) as (f & Hf & Htgt).
  unfold row. rewrite Hf. simpl. by rewrite decide_True.
Qed.

(** X11: when the instances of a batch all carry field [name] with the same
    tag, the stacked tensor of the field has one row per instance of the
    batch, in slice order: row i is the value of the field in the i-th
    instance, followed by zeros up to the padding length.  It is returned in
    [batch_y] for a target field, and in [batch_x] for an input field whose
    name is not that of a length auxiliary; a target field is not returned in
    [batch_x]. *)
Theorem rows_follow_slice (b b' : Batch) (il : list nat) (out : BatchOut)
    (name : string) (tgt : bool) :
  well_formed b il → next b = (b', Ok out) →
  Forall (λ ins, is_target <$> ins !! name = Some tgt)
         (slice (curidx b) (endidx_of b il) (dataset b)) →
  no_auxiliary_name (dataset b) (curidx b) (endidx_of b il) name →
  ∃ rs,
    (if tgt then batch_y out else batch_x out) !! name
    = Some (on_device (use_cuda b) (Mat Cpu rs))
    ∧ (tgt = true → batch_x out !! name = None)
    ∧ length rs = length (visited out)
    ∧ (∀ i idx, visited out !! i = Some idx →
         ∃ ins f, dataset b !! idx = Some ins ∧ ins !! name = Some f
                ∧ rs !! i
                  = Some (value f ++
                          replicate (batch_max (dataset b) (curidx b) (endidx_of b il) name
                                     - length (value f)) 0%Z)).
Proof.
  intros Hwf Hnext Hall Hnoaux.
  destruct (next_batch b b' il out Hwf Hnext) as ([Hlo Hhi] & Hvis & Hy & _ & Hx & _).
  set (c := curidx b) in *. set (e := endidx_of b il) in *. set (d := dataset b) in *.
  pose proof (rows_total tgt d c e name Hall) as Hrows.
  assert (Hkey : ∀ name', is_Some (stacked (use_cuda b) false d c e name') →
                          name ≠ name' +:+ "_origin_len").
  { intros name' Hs.
    apply (stacked_is_Some b e) in Hs as (ins & f & Hin & Hf & Htgt).
    by apply (Hnoaux name' ins f). }
  assert (Hne : slice c e d ≠ []).
  { intros Hnil. apply (f_equal length) in Hnil.
    rewrite slice_length in Hnil by done. simpl in Hnil. lia. }
  assert (Hs : stacked (use_cuda b) tgt d c e name
               = Some (on_device (use_cuda b) (Mat Cpu (rows tgt d c e name)))).
  { unfold stacked. rewrite Hrows. destruct (slice c e d); done. }
  exists (rows tgt d c e name). split; [|split; [|split]].
  - destruct tgt; [by rewrite Hy | by rewrite Hx].
  - intros ->. rewrite Hx by done.
    destruct (stacked (use_cuda b) false d c e name) eqn:Hsome; [|done].
    destruct (stacked_is_Some b e false name) as (ins & f & Hin & Hf & Htgt);
      [by eexists|].
    rewrite Forall_forall in Hall.
    destruct (tagged_Some true name ins (Hall ins Hin)) as (f' & Hf' & Htgt').
    congruence.
  - by rewrite Hrows, length_fmap, Hvis, range_length, slice_length.
  - intros i idx Hi. rewrite Hvis in Hi. apply lookup_seq in Hi as [-> Hi].
    destruct (lookup_lt_is_Some_2 d (c + i)) as [ins Hins]; [lia|].
    assert (Hin : ins ∈ slice c e d) by (apply slice_elem_of; exists (c + i); split; [lia|done]).
    rewrite Forall_forall in Hall.
    destruct (tagged_Some tgt name ins (Hall ins Hin)) as (f & Hf & _).
    exists ins, f. split; [done|]. split; [done|].
    rewrite Hrows, list_lookup_fmap, slice_lookup, Hins by done.
    simpl. by rewrite Hf.
Qed.

Lemma rows_follow_slice_witness :
  ∃ rs,
    batch_x example_first_batch !! "text" = Some (Mat Cpu rs)
    ∧ length rs = 2
    ∧ (∀ i idx, [0; 1] !! i = Some idx →
         ∃ ins f, example_data !! idx = Some ins ∧ ins !! "text" = Some f
                ∧ rs !! i = Some (value f ++ replicate (7 - length (value f)) 0%Z)).
Proof.
  destruct (rows_follow_slice (iter example_iterator)
              (set_curidx (iter example_iterator) 2) [0; 1; 2]
              example_first_batch "text" false) as (rs & Hx & _ & Hlen & Hrows).
  - decide_by_computation.
  - vm_compute. reflexivity.
  - decide_by_computation.
  - intros name ins f _ _ _ Heq.
    apply (f_equal String.length) in Heq. rewrite string_app_length in Heq.
    simpl in Heq. lia.
  - exists rs. split; [exact Hx|]. split; [exact Hlen | exact Hrows].
Defined.

(** X12: the length auxiliaries are merged into [batch_x] last (line 79), so
    an input field whose name is another input field's name followed by
    "_origin_len" is not returned: the entry under its name is the length
    tensor of the other field. *)
Theorem auxiliary_overwrites_field (b b' : Batch) (il : list nat) (out : BatchOut)
    (name : string) (ins : Instance) (f : Field) :
  well_formed b il → next b = (b', Ok out) →
  ins ∈ slice (curidx b) (endidx_of b il) (dataset b) →
  ins !! name = Some f → is_target f = false →
  batch_x out !! (name +:+ "_origin_len")
  = Some (origin_len (use_cuda b) (dataset b) (curidx b) (endidx_of b il) name)
  ∧ ∀ dev rs, batch_x out !! (name +:+ "_origin_len") ≠ Some (Mat dev rs).
Proof.
  intros Hwf Hnext Hin Hf Htgt.
  destruct (next_batch b b' il out Hwf Hnext) as ([Hlo Hhi] & _ & _ & Haux & _).
  assert (Hentry : batch_x out !! (name +:+ "_origin_len")
            = Some (origin_len (use_cuda b) (dataset b) (curidx b) (endidx_of b il) name)).
  { apply Haux. by apply (stacked_is_Some_2 b (endidx_of b il) false name ins f). }
  split; [done|]. intros dev rs. rewrite Hentry. intros [= Heq].
  by apply origin_len_not_Mat in Heq.
Qed.

Lemma auxiliary_overwrites_field_witness :
  batch_x clash_first_batch !! "text_origin_len" = Some (Vec Cpu [1; 2]%Z).
Proof.
  destruct (auxiliary_overwrites_field (iter clash_iterator)
              (set_curidx (iter clash_iterator) 2) [0; 1] clash_first_batch
              "text" (clash_instance [1]%Z) (text_field [1]%Z)) as [Hentry _].
  - decide_by_computation.
  - vm_compute. reflexivity.
  - vm_compute. left.
  - reflexivity.
  - reflexivity.
  - etrans; [exact Hentry|]. vm_compute. reflexivity.
Defined.
